(** * cm-subnav-stacker: the descriptor normalizer, the grouping engine,
      configuration resolution and the mount operation of
      [admin/src/components/SubNavInjector.tsx], embedded and verified.

    Conventions of the embedding.
    - A JavaScript string is the list of its UTF-16 code units ([jsstring]);
      [js "..."] writes an ASCII literal.
    - A JavaScript number that the code only ever uses as an integer is a [Z].
      This is exact on the safe integers (absolute value at most
      [MAX_SAFE_INTEGER]); beyond them JavaScript rounds to a double, which the
      embedding does not represent.
    - [undefined] results and thrown [TypeError]s are [None].
    - [String.prototype.localeCompare], the collation of the host, is a
      parameter of the grouping engine; the theorems on order assume it
      [consistent], and [codeUnitCompare] is an instance to run with. *)

From Stdlib Require Import String Ascii.
From Stdlib Require Import List ZArith NArith Lia Bool.
From Stdlib Require Import Sorting.Sorted Sorting.Permutation.
Import ListNotations.

Set Implicit Arguments.

(* ================================================================== *)
(** * JavaScript strings *)
(* ================================================================== *)

Abbreviation codeUnit := N (only parsing).
Abbreviation jsstring := (list N) (only parsing).

(** An ASCII literal as a JavaScript string. *)
Definition js (s : String.string) : jsstring :=
  map Ascii.N_of_ascii (String.list_ascii_of_string s).

(** [a === b] on strings. *)
Fixpoint str_eqb (a b : jsstring) : bool :=
  match a, b with
  | [], [] => true
  | x :: a', y :: b' => N.eqb x y && str_eqb a' b'
  | _, _ => false
  end.

(** The class [\d] of a regular expression without the unicode flag. *)
Definition isDigit (c : codeUnit) : bool :=
  (N.leb 48 c && N.leb c 57)%N.

(** The class [\s], which is also what [String.prototype.trim] strips:
    WhiteSpace and LineTerminator of ECMA-262. *)
Definition isWhiteSpace (c : codeUnit) : bool :=
  ((N.leb 9 c && N.leb c 13)
   || N.eqb c 32 || N.eqb c 160 || N.eqb c 5760
   || (N.leb 8192 c && N.leb c 8202)
   || N.eqb c 8232 || N.eqb c 8233 || N.eqb c 8239
   || N.eqb c 8287 || N.eqb c 12288 || N.eqb c 65279)%N.

Fixpoint dropWhile (p : codeUnit -> bool) (s : jsstring) : jsstring :=
  match s with
  | [] => []
  | c :: s' => if p c then dropWhile p s' else s
  end.

Fixpoint takeWhile (p : codeUnit -> bool) (s : jsstring) : jsstring :=
  match s with
  | [] => []
  | c :: s' => if p c then c :: takeWhile p s' else []
  end.

Definition trimStart (s : jsstring) : jsstring := dropWhile isWhiteSpace s.
Definition trimEnd (s : jsstring) : jsstring :=
  rev (dropWhile isWhiteSpace (rev s)).

(** [s.trim()] *)
Definition trim (s : jsstring) : jsstring := trimEnd (trimStart s).

(** [s.startsWith(p)] *)
Fixpoint startsWith (s p : jsstring) : bool :=
  match p, s with
  | [], _ => true
  | x :: p', y :: s' => N.eqb x y && startsWith s' p'
  | _ :: _, [] => false
  end.

(** [s.includes(sub)] *)
Fixpoint includes (s sub : jsstring) : bool :=
  startsWith s sub ||
  match s with
  | [] => false
  | _ :: s' => includes s' sub
  end.

(** [s.slice(n)] for [0 <= n]. *)
Definition slice (s : jsstring) (n : nat) : jsstring := skipn n s.

(** [s.split(sep)] for a non-empty separator: [skip] counts the code units of
    the separator occurrence being consumed, [cur] is the segment read so far,
    in reverse. *)
Fixpoint splitGo (sep : jsstring) (skip : nat) (s cur : jsstring)
  : list jsstring :=
  match s with
  | [] => [rev cur]
  | c :: s' =>
      match skip with
      | S k => splitGo sep k s' cur
      | O =>
          if startsWith s sep
          then rev cur :: splitGo sep (length sep - 1) s' []
          else splitGo sep 0 s' (c :: cur)
      end
  end.

(** [s.split(sep)]: with the empty separator the string falls apart into its
    code units (and the empty string into no segment at all). *)
Definition split (s sep : jsstring) : list jsstring :=
  match sep with
  | [] => map (fun c => [c]) s
  | _ :: _ => splitGo sep 0 s []
  end.

(** The decimal value of a run of digits. *)
Definition digitValue (c : codeUnit) : Z := Z.of_N c - 48.

Definition decimalValue (ds : jsstring) : Z :=
  fold_left (fun acc d => (10 * acc + digitValue d)%Z) ds 0%Z.

(** [parseInt(ds, 10)] on a string matched by [\d+]. *)
Definition parseInt (ds : jsstring) : Z := decimalValue ds.

Definition MAX_SAFE_INTEGER : Z := 9007199254740991.

(* ================================================================== *)
(** * Descriptor normalizer *)
(* ================================================================== *)

Definition defaultDelimiter : jsstring := js " | ".

Inductive Template := official | v5 | accordion.

Definition defaultTemplate : Template := accordion.

(** [kind: 'collectionType' | 'singleType'], as the interface declares it:
    the listing is trusted to hold no other kind. *)
Inductive Kind := collectionType | singleType.

Definition Kind_eqb (a b : Kind) : bool :=
  match a, b with
  | collectionType, collectionType => true
  | singleType, singleType => true
  | _, _ => false
  end.

(** [interface ContentType].  [group] is [None] when
    [getContentTypeGroup] returned [undefined]. *)
Record ContentType := {
  uid : jsstring;
  name : jsstring;
  displayName : jsstring;
  group : option jsstring;
  isDisplayed : bool;
  href : jsstring;
  kind : Kind;
  sortOrder : Z
}.

(** A record of the content-type listing, as far as [formatContentTypes]
    reads it: [ct.uid], [ct.apiID], [ct.schema.displayName] (possibly absent)
    and [ct.schema.kind]. *)
Record Schema := {
  schema_displayName : option jsstring;
  schema_kind : Kind
}.

Record RawContentType := {
  raw_uid : jsstring;
  apiID : jsstring;
  schema : Schema
}.

(** The match of [/^\[(\d+)\]\s*/]: the digits captured by group 1 and what
    is left of the string after the whole match.  [\d+] is greedy and must be
    followed by a bracket, which is no digit, so the digits are the longest
    run; [\s*] is greedy and last, so it takes the longest run too. *)
Definition matchSortPrefix (s : jsstring) : option (jsstring * jsstring) :=
  match s with
  | c :: t =>
      if N.eqb c 91 (* [ *)
      then match takeWhile isDigit t, dropWhile isDigit t with
           | (_ :: _) as ds, b :: r =>
               if N.eqb b 93 (* ] *)
               then Some (ds, dropWhile isWhiteSpace r)
               else None
           | _, _ => None
           end
      else None
  | [] => None
  end.

(** [extractSortOrder(displayName, defaultSortOrder)], as the pair
    [(sortOrder, cleanDisplayName)]. *)
Definition extractSortOrder (displayName : jsstring) (defaultSortOrder : Z)
  : Z * jsstring :=
  match matchSortPrefix displayName with
  | Some (ds, rest) => (parseInt ds, rest)
  | None => (defaultSortOrder, displayName)
  end.

(** [cleanHeaderText(text)] *)
Definition cleanHeaderText (text : jsstring) : jsstring :=
  match matchSortPrefix text with
  | Some (_, rest) => rest
  | None => text
  end.

(** [getContentTypeGroup(delimiter, displayName)]: [entity[0]], which is
    [undefined] when the split produced no segment. *)
Definition getContentTypeGroup (delimiter displayName : jsstring)
  : option jsstring :=
  hd_error (map trim (split displayName delimiter)).

(** String concatenation with a possibly undefined left operand. *)
Definition toString (v : option jsstring) : jsstring :=
  match v with
  | Some s => s
  | None => js "undefined"
  end.

(** [a || b] on strings: the empty string and [undefined] are falsy. *)
Definition orElse (a : option jsstring) (b : jsstring) : jsstring :=
  match a with
  | Some ((_ :: _) as s) => s
  | _ => b
  end.

(** The filter of [formatContentTypes]. *)
Definition isRetained (ct : RawContentType) : bool :=
  startsWith (raw_uid ct) (js "api::") || startsWith (raw_uid ct) (js "plugin::").

(** [ct.schema.displayName || ct.apiID] *)
Definition rawDisplayName (ct : RawContentType) : jsstring :=
  orElse (schema_displayName (schema ct)) (apiID ct).

(** The body of the [map] of [formatContentTypes]. *)
Definition formatContentType (delimiter : jsstring) (defaultSortOrder : Z)
  (ct : RawContentType) : ContentType :=
  let displayName := rawDisplayName ct in
  let kind := schema_kind (schema ct) in
  let '(sortOrder, cleanDisplayName) :=
    extractSortOrder displayName defaultSortOrder in
  let groupName := getContentTypeGroup delimiter cleanDisplayName in
  let prefix := (toString groupName ++ delimiter)%list in
  let newDisplayName :=
    if startsWith cleanDisplayName prefix
    then slice cleanDisplayName (length prefix)
    else cleanDisplayName in
  {| uid := raw_uid ct;
     name := apiID ct;
     displayName := newDisplayName;
     group := groupName;
     isDisplayed := true;
     href := (js "/admin/content-manager/"
              ++ (if Kind_eqb kind singleType
                  then js "single-types" else js "collection-types")
              ++ js "/" ++ raw_uid ct)%list;
     kind := kind;
     sortOrder := sortOrder |}.

(** [formatContentTypes(delimiter, data)]; [data] is [None] when [data] or
    [data.data] is missing. *)
Definition formatContentTypes (delimiter : jsstring)
  (data : option (list RawContentType)) : list ContentType :=
  match data with
  | None => []
  | Some records =>
      let defaultSortOrder := (Z.of_nat (length records) + 1000)%Z in
      map (formatContentType delimiter defaultSortOrder)
          (filter isRetained records)
  end.

(* ================================================================== *)
(** * Permission filter *)
(* ================================================================== *)

(** A permission as the filter reads it; [p.action] is read through [?.] and
    [p.subject] may be [null], so both are optional. *)
Record Permission := {
  action : option jsstring;
  subject : option jsstring
}.

Definition optEquals (v : option jsstring) (s : jsstring) : bool :=
  match v with
  | Some x => str_eqb x s
  | None => false
  end.

Definition optIncludes (v : option jsstring) (sub : jsstring) : bool :=
  match v with
  | Some x => includes x sub
  | None => false
  end.

Definition explorerRead : jsstring :=
  js "plugin::content-manager.explorer.read".

Definition hasContentManagerRead (permissions : list Permission)
  (ct : ContentType) : bool :=
  existsb (fun p => optEquals (action p) explorerRead
                    && optEquals (subject p) (uid ct)) permissions.

Definition hasPluginRead (permissions : list Permission) (ct : ContentType)
  : bool :=
  startsWith (uid ct) (js "plugin::")
  && existsb (fun p => optEquals (subject p) (uid ct)
                       && (optIncludes (action p) (js "read")
                           || optIncludes (action p) (js "find")
                           || optEquals (action p) explorerRead)) permissions.

(** [allowedContentTypes] of [fetchContentTypes]: the permission gate. *)
Definition allowedContentTypes (permissions : list Permission)
  (contentTypes : list ContentType) : list ContentType :=
  if (0 <? length permissions)%nat
  then filter (fun ct => hasContentManagerRead permissions ct
                         || hasPluginRead permissions ct) contentTypes
  else contentTypes.

(* ================================================================== *)
(** * Grouping engine *)
(* ================================================================== *)

(** [interface ContentTypeGroup].  The sort order of a group is a
    [Math.min], which is [Infinity] on no argument. *)
Inductive number := Finite (z : Z) | Infinity.

Record ContentTypeGroup := {
  gname : jsstring;
  items : list ContentType;
  gsortOrder : number
}.

Definition number_eqb (a b : number) : bool :=
  match a, b with
  | Finite x, Finite y => (x =? y)%Z
  | Infinity, Infinity => true
  | _, _ => false
  end.

Definition number_ltb (a b : number) : bool :=
  match a, b with
  | Finite x, Finite y => (x <? y)%Z
  | Finite _, Infinity => true
  | Infinity, _ => false
  end.

Definition number_min (a b : number) : number :=
  if number_ltb b a then b else a.

(** [Math.min(...values)] *)
Definition Math_min (values : list Z) : number :=
  fold_right (fun z acc => number_min (Finite z) acc) Infinity values.

(** [Array.prototype.sort(compare)]: the sort is stable, and on a consistent
    comparator (the only case in which ECMA-262 fixes the result) every stable
    sort returns the same array; it is taken here as the stable insertion
    sort.  Only the sign of [compare a b] matters. *)
Section ArraySort.
Variable A : Type.
Variable compare : A -> A -> Z.

Fixpoint insertSorted (x : A) (l : list A) : list A :=
  match l with
  | [] => [x]
  | y :: l' =>
      if (compare x y <=? 0)%Z then x :: l else y :: insertSorted x l'
  end.

Definition Array_sort (l : list A) : list A :=
  fold_right insertSorted [] l.
End ArraySort.

(** The object [groupMap]: its own properties in creation order.  The object
    is created by [{}], so it inherits from [Object.prototype]. *)
Definition GroupMap := list (jsstring * list ContentType).

(** The property names of [Object.prototype]; each holds a function, or, for
    [__proto__], the prototype object: truthy values without a [push]. *)
Definition objectPrototypeKeys : list jsstring :=
  map js [ "constructor"; "__defineGetter__"; "__defineSetter__";
           "hasOwnProperty"; "__lookupGetter__"; "__lookupSetter__";
           "isPrototypeOf"; "propertyIsEnumerable"; "toString"; "valueOf";
           "__proto__"; "toLocaleString" ]%string.

Definition isInherited (k : jsstring) : bool :=
  existsb (str_eqb k) objectPrototypeKeys.

(** What [groupMap[k]] evaluates to. *)
Inductive PropertyValue :=
| OwnArray (a : list ContentType)
| InheritedValue
| Undefined.

Fixpoint ownProperty (m : GroupMap) (k : jsstring)
  : option (list ContentType) :=
  match m with
  | [] => None
  | (k', a) :: m' => if str_eqb k' k then Some a else ownProperty m' k
  end.

Definition getProperty (m : GroupMap) (k : jsstring) : PropertyValue :=
  match ownProperty m k with
  | Some a => OwnArray a
  | None => if isInherited k then InheritedValue else Undefined
  end.

(** [groupMap[k].push(ct)] on an own array. *)
Fixpoint pushTo (m : GroupMap) (k : jsstring) (ct : ContentType) : GroupMap :=
  match m with
  | [] => []
  | (k', a) :: m' =>
      if str_eqb k' k then (k', a ++ [ct]) :: m'
      else (k', a) :: pushTo m' k ct
  end.

(** The body of the [forEach] of [organizeByGroups].  It throws a
    [TypeError] ([None]) when the group name is a property of
    [Object.prototype]: the guard finds a truthy value, and the value has no
    [push]. *)
Definition addToGroup (groupMap : GroupMap) (contentType : ContentType)
  : option GroupMap :=
  let groupName := orElse (group contentType) (js "General") in
  let groupMap1 :=
    match getProperty groupMap groupName with
    | Undefined => groupMap ++ [(groupName, [])]
    | _ => groupMap
    end in
  match getProperty groupMap1 groupName with
  | OwnArray _ => Some (pushTo groupMap1 groupName contentType)
  | _ => None
  end.

Fixpoint forEachAdd (groupMap : GroupMap) (contentTypes : list ContentType)
  : option GroupMap :=
  match contentTypes with
  | [] => Some groupMap
  | ct :: rest =>
      match addToGroup groupMap ct with
      | Some groupMap' => forEachAdd groupMap' rest
      | None => None
      end
  end.

(** A property key is an array index when it is the canonical decimal form
    of an integer below [2^32 - 1]. *)
Definition arrayIndex (k : jsstring) : option Z :=
  match k with
  | [] => None
  | c :: rest =>
      if forallb isDigit k
         && (negb (N.eqb c 48) || match rest with [] => true | _ => false end)
         && (decimalValue k <? 4294967295)%Z
      then Some (decimalValue k) else None
  end.

Definition isArrayIndex (k : jsstring) : bool :=
  match arrayIndex k with Some _ => true | None => false end.

Definition indexValue (k : jsstring) : Z :=
  match arrayIndex k with Some i => i | None => 0%Z end.

(** [Object.entries(groupMap)] (and the order of [Object.values]): own
    properties, array indices first in ascending order, then the other keys
    in creation order. *)
Definition Object_entries (m : GroupMap) : GroupMap :=
  Array_sort (fun a b => (indexValue (fst a) - indexValue (fst b))%Z)
             (filter (fun e => isArrayIndex (fst e)) m)
  ++ filter (fun e => negb (isArrayIndex (fst e))) m.

Definition General : jsstring := js "General".

Section Grouping.
(** [String.prototype.localeCompare] is the host's collation. *)
Variable localeCompare : jsstring -> jsstring -> Z.

(** The comparator of [items.sort]. *)
Definition compareItems (a b : ContentType) : Z :=
  if negb (sortOrder a =? sortOrder b)%Z
  then (sortOrder a - sortOrder b)%Z
  else localeCompare (displayName a) (displayName b).

(** The comparator of [groups.sort]; the difference of the sort orders is
    given by its sign. *)
Definition compareGroups (a b : ContentTypeGroup) : Z :=
  if str_eqb (gname a) General then (-1)%Z
  else if str_eqb (gname b) General then 1%Z
  else if negb (number_eqb (gsortOrder a) (gsortOrder b))
  then (if number_ltb (gsortOrder a) (gsortOrder b) then (-1)%Z else 1%Z)
  else localeCompare (gname a) (gname b).

Definition sortItems (m : GroupMap) : GroupMap :=
  map (fun e => (fst e, Array_sort compareItems (snd e))) m.

Definition toGroup (e : jsstring * list ContentType) : ContentTypeGroup :=
  {| gname := fst e;
     items := snd e;
     gsortOrder := Math_min (map sortOrder (snd e)) |}.

(** [organizeByGroups(contentTypes)]; [None] when it throws. *)
Definition organizeByGroups (contentTypes : list ContentType)
  : option (list ContentTypeGroup) :=
  match forEachAdd [] contentTypes with
  | None => None
  | Some groupMap =>
      let groups := map toGroup (Object_entries (sortItems groupMap)) in
      Some (Array_sort compareGroups groups)
  end.
End Grouping.

(** The comparison of code units, a collation to run the engine with. *)
Fixpoint codeUnitCompare (a b : jsstring) : Z :=
  match a, b with
  | [], [] => 0%Z
  | [], _ :: _ => (-1)%Z
  | _ :: _, [] => 1%Z
  | x :: a', y :: b' =>
      if N.ltb x y then (-1)%Z
      else if N.ltb y x then 1%Z
      else codeUnitCompare a' b'
  end.

(* ================================================================== *)
(** * Renderers *)
(* ================================================================== *)

(** [allTypes] of the three group sections ([OfficialContentTypeGroupSection],
    [V5ContentTypeGroupSection], [AccordionContentTypeGroupSection]), which
    compute it alike. *)
Definition collectionTypes (g : ContentTypeGroup) : list ContentType :=
  filter (fun item => Kind_eqb (kind item) collectionType) (items g).

Definition singleTypes (g : ContentTypeGroup) : list ContentType :=
  filter (fun item => Kind_eqb (kind item) singleType) (items g).

Definition allTypes (g : ContentTypeGroup) : list ContentType :=
  collectionTypes g ++ singleTypes g.

(** The items a group section renders; [None] is the [return null] of the
    empty-group branch. *)
Definition ContentTypeGroupSection (g : ContentTypeGroup)
  : option (list ContentType) :=
  if (length (items g) =? 0)%nat then None else Some (allTypes g).

(* ================================================================== *)
(** * Configuration resolution *)
(* ================================================================== *)

(** A value of the parsed config response.  A number stands for any JSON
    number: all that is asked of it here is whether it is zero. *)
#[local] Unset Elimination Schemes.
Inductive JsValue :=
| JUndefined
| JNull
| JBool (b : bool)
| JNumber (z : Z)
| JString (s : jsstring)
| JArray (elems : list JsValue)
| JObject (fields : list (jsstring * JsValue)).
#[local] Set Elimination Schemes.

Definition truthy (v : JsValue) : bool :=
  match v with
  | JUndefined | JNull => false
  | JBool b => b
  | JNumber z => negb (z =? 0)%Z
  | JString s => match s with [] => false | _ => true end
  | JArray _ | JObject _ => true
  end.

(** [a || b] *)
Definition jsOr (a b : JsValue) : JsValue := if truthy a then a else b.

Fixpoint lookupField (fields : list (jsstring * JsValue)) (k : jsstring)
  : JsValue :=
  match fields with
  | [] => JUndefined
  | (k', v) :: rest => if str_eqb k' k then v else lookupField rest k
  end.

(** [v.k] for [k] one of [delimiter], [template], which no prototype
    defines: only a plain object can hold it. *)
Definition getMember (v : JsValue) (k : jsstring) : JsValue :=
  match v with
  | JObject fields => lookupField fields k
  | _ => JUndefined
  end.

Definition templateName (t : Template) : jsstring :=
  match t with
  | official => js "official"
  | v5 => js "v5"
  | accordion => js "accordion"
  end.

Definition envValue (v : option jsstring) : JsValue :=
  match v with
  | Some s => JString s
  | None => JUndefined
  end.

Record PluginConfig := {
  delimiter : JsValue;
  template : JsValue
}.

(** [getPluginConfig()], given the two environment variables and the
    outcome of the fetch: [None] when the fetch or the JSON parse failed,
    which the [catch] turns into [{}]. *)
Definition getPluginConfig (envDelimiter envTemplate : option jsstring)
  (response : option JsValue) : PluginConfig :=
  let delimiter0 := jsOr (envValue envDelimiter) (JString defaultDelimiter) in
  let template0 :=
    jsOr (envValue envTemplate) (JString (templateName defaultTemplate)) in
  let config := match response with Some v => v | None => JObject [] end in
  if truthy config
  then {| delimiter := jsOr (getMember config (js "delimiter")) delimiter0;
          template := jsOr (getMember config (js "template")) template0 |}
  else {| delimiter := delimiter0; template := template0 |}.

(** The renderer [NavigationApp] picks for a template value. *)
Definition selectTemplate (t : JsValue) : Template :=
  match t with
  | JString s =>
      if str_eqb s (js "accordion") then accordion
      else if str_eqb s (js "v5") then v5
      else official
  | _ => official
  end.

(* ================================================================== *)
(** * The host document and the mount operation *)
(* ================================================================== *)

(** A DOM node: an element with its tag, attributes and child nodes, or a
    text node. *)
#[local] Unset Elimination Schemes.
Inductive Node :=
| Element (tag : jsstring) (attributes : list (jsstring * jsstring))
          (childNodes : list Node)
| Text (data : jsstring).
#[local] Set Elimination Schemes.

(** A node is addressed by the child indices that lead to it from the root. *)
Definition Path := list nat.

Fixpoint getAttribute (attributes : list (jsstring * jsstring)) (k : jsstring)
  : option jsstring :=
  match attributes with
  | [] => None
  | (k', v) :: rest => if str_eqb k' k then Some v else getAttribute rest k
  end.

Definition hasAttribute (n : Node) (k v : jsstring) : bool :=
  match n with
  | Element _ attributes _ => optEquals (getAttribute attributes k) v
  | Text _ => false
  end.

Definition hasTag (n : Node) (t : jsstring) : bool :=
  match n with
  | Element tag _ _ => str_eqb tag t
  | Text _ => false
  end.

Definition hasId (i : jsstring) (n : Node) : bool := hasAttribute n (js "id") i.

Definition isElement (n : Node) : bool :=
  match n with Element _ _ _ => true | Text _ => false end.

(** [n.children.length]: element children only. *)
Definition childElementCount (n : Node) : nat :=
  match n with
  | Element _ _ cs => length (filter isElement cs)
  | Text _ => 0
  end.

(** [n.textContent] *)
Fixpoint textContent (n : Node) : jsstring :=
  match n with
  | Text d => d
  | Element _ _ cs => concat (map textContent cs)
  end.

Section ChildElements.
Variable elementsOf : Node -> list (Path * Node).

Fixpoint childElements (k : nat) (cs : list Node) : list (Path * Node) :=
  match cs with
  | [] => []
  | c :: cs' =>
      map (fun e => (k :: fst e, snd e)) (elementsOf c)
      ++ childElements (S k) cs'
  end.
End ChildElements.

(** The elements of the subtree of [n], [n] included, in document order,
    each with its path from [n]. *)
Fixpoint elements (n : Node) : list (Path * Node) :=
  match n with
  | Text _ => []
  | Element _ _ cs => ([], n) :: childElements elements 0 cs
  end.

(** [document.querySelectorAll], for a selector given as a predicate. *)
Definition querySelectorAll (document : Node) (sel : Node -> bool)
  : list (Path * Node) :=
  filter (fun e => sel (snd e)) (elements document).

(** [document.querySelector] *)
Definition querySelector (document : Node) (sel : Node -> bool)
  : option (Path * Node) :=
  find (fun e => sel (snd e)) (elements document).

(** [el.querySelectorAll] and [el.querySelector] search the descendants of
    [el] only; the paths are made absolute with the path of [el]. *)
Definition descendants (at_ : Path) (el : Node) : list (Path * Node) :=
  map (fun e => (at_ ++ fst e, snd e)) (tl (elements el)).

Definition querySelectorAllIn (at_ : Path) (el : Node) (sel : Node -> bool)
  : list (Path * Node) :=
  filter (fun e => sel (snd e)) (descendants at_ el).

Definition querySelectorIn (at_ : Path) (el : Node) (sel : Node -> bool)
  : option (Path * Node) :=
  find (fun e => sel (snd e)) (descendants at_ el).

(** [document.getElementById(i)] *)
Definition getElementById (document : Node) (i : jsstring)
  : option (Path * Node) :=
  querySelector document (hasId i).

(** The elements on the way from the root down to, and excluding, the node
    at path [p]. *)
Fixpoint ancestors (n : Node) (p : Path) : list Node :=
  match p with
  | [] => []
  | k :: p' =>
      n :: match n with
           | Element _ _ cs =>
               match nth_error cs k with
               | Some c => ancestors c p'
               | None => []
               end
           | Text _ => []
           end
  end.

(** [el.parentElement?.closest(t) === null] for an element with a parent. *)
Definition noAncestorWithTag (document : Node) (p : Path) (t : jsstring)
  : bool :=
  forallb (fun a => negb (hasTag a t)) (ancestors document p).

Fixpoint replaceNth (k : nat) (f : Node -> Node) (cs : list Node) : list Node :=
  match cs, k with
  | [], _ => []
  | c :: cs', O => f c :: cs'
  | c :: cs', S k' => c :: replaceNth k' f cs'
  end.

(** [el.prepend(new)] for the element [el] at path [p]. *)
Fixpoint prependAt (p : Path) (new : Node) (n : Node) : Node :=
  match n with
  | Text _ => n
  | Element t a cs =>
      match p with
      | [] => Element t a (new :: cs)
      | k :: p' => Element t a (replaceNth k (prependAt p' new) cs)
      end
  end.

Definition containerId : jsstring := js "stack-nav-container".

(** [nav[aria-label="Content Manager"]] *)
Definition navQuery (n : Node) : bool :=
  hasTag n (js "nav") && hasAttribute n (js "aria-label") (js "Content Manager").

(** What the mount operation asks of React:
    [ReactDOM.createRoot(container).render(<NavigationApp />)]. *)
Inductive Effect := RenderNavigationApp (container : Path).

(** [processNavigation(originalNav)] *)
Definition processNavigation (document : Node) (originalNav : Path)
  : Node * list Effect :=
  match getElementById document containerId with
  | Some (p, existingNav) =>
      if (childElementCount existingNav =? 0)%nat
      then (document, [RenderNavigationApp p])
      else (document, [])
  | None =>
      let navContainer :=
        Element (js "li")
                [(js "id", containerId); (js "class", js "stack-navigation")]
                [] in
      (prependAt originalNav navContainer document,
       [RenderNavigationApp (originalNav ++ [0%nat])])
  end.

Definition mentions (n : Node) (label : String.string) : bool :=
  includes (textContent n) (js label).

(** The three tiers by which the navigation root is looked for. *)
Definition findNav (document : Node) : option (Path * Node) :=
  match querySelector document navQuery with
  | Some nav => Some nav
  | None =>
      match querySelector document (fun n => hasTag n (js "nav")) with
      | Some nav => Some nav
      | None =>
          find (fun e => mentions (snd e) "Collection Types"
                         || mentions (snd e) "Single Types")
               (querySelectorAll document (fun n => hasTag n (js "nav")))
      end
  end.

Definition hasStack (ol : Path * Node) : bool :=
  match querySelectorIn (fst ol) (snd ol) (hasId containerId) with
  | Some _ => true
  | None => false
  end.

(** [setupNavigationReplacement()]: the new document and the renders asked
    for.  ([window.navObserver] is assigned nowhere, so the disconnect at the
    top never runs.) *)
Definition setupNavigationReplacement (document : Node) : Node * list Effect :=
  match findNav document with
  | Some (navPath, nav) =>
      let allOls := querySelectorAllIn navPath nav (fun n => hasTag n (js "ol")) in
      let mainOl :=
        find (fun ol =>
                if hasStack ol then true
                else (mentions (snd ol) "Collection Types"
                      || mentions (snd ol) "Single Types")
                     && noAncestorWithTag document (fst ol) (js "ol"))
             allOls in
      match mainOl with
      | Some ol => processNavigation document (fst ol)
      | None =>
          match allOls with
          | ol :: _ => processNavigation document (fst ol)
          | [] => (document, [])
          end
      end
  | None => (document, [])
  end.

(** The mount part of the interval callback of
    [setupContinuousNavigationCheck].  What follows it in the callback
    ([hideCollectionTypeHeaders] and the cleaning of the title) assigns
    [style.display] and [textContent] of host elements and creates no
    element; it is a host step of the transition relation below. *)
Definition checkNavigation (pathname : jsstring) (document : Node)
  : Node * list Effect :=
  if includes pathname (js "/admin/content-manager")
  then
    let navContainer :=
      match findNav document with
      | Some (navPath, navElement) =>
          let allOls :=
            querySelectorAllIn navPath navElement (fun n => hasTag n (js "ol")) in
          match find (fun ol =>
                        hasStack ol
                        || (mentions (snd ol) "Collection Types"
                            && noAncestorWithTag document (fst ol) (js "ol")))
                     allOls with
          | Some ol => Some ol
          | None => hd_error allOls
          end
      | None => None
      end in
    let customNav := getElementById document containerId in
    match navContainer, customNav with
    | Some _, None => setupNavigationReplacement document
    | _, _ => (document, [])
    end
  else (document, []).

(** The number of elements of the document that carry a given id. *)
Fixpoint countId (i : jsstring) (n : Node) : nat :=
  match n with
  | Text _ => 0
  | Element _ _ cs =>
      (if hasId i n then 1 else 0) + list_sum (map (countId i) cs)
  end.

Definition countContainers (document : Node) : nat :=
  countId containerId document.

(** One step of the page: a run of the mount operation from either entry
    point, or a step of the host (the host application, React, the rest of
    the interval callback), which may rewrite the document at will but
    creates no element with the container's id. *)
Inductive step : Node -> Node -> Prop :=
| step_mount : forall d, step d (fst (setupNavigationReplacement d))
| step_interval : forall pathname d, step d (fst (checkNavigation pathname d))
| step_host : forall d d',
    (countContainers d' <= countContainers d)%nat -> step d d'.

Inductive steps : Node -> Node -> Prop :=
| steps_refl : forall d, steps d d
| steps_cons : forall d1 d2 d3, step d1 d2 -> steps d2 d3 -> steps d1 d3.

(* ================================================================== *)
(** * Vocabulary of the statements *)
(* ================================================================== *)

(** A display name begins with an ordering hint: a bracketed, non-empty run
    of decimal digits. *)
Definition hasHintPrefix (s : jsstring) : Prop :=
  exists ds tail,
    ds <> [] /\ Forall (fun c => isDigit c = true) ds /\
    s = 91%N :: ds ++ 93%N :: tail.

(** The pattern of the specification: the hint must be followed by
    whitespace. *)
Definition hasHintThenSpace (s : jsstring) : Prop :=
  exists ds ws rest,
    ds <> [] /\ Forall (fun c => isDigit c = true) ds /\
    ws <> [] /\ Forall (fun c => isWhiteSpace c = true) ws /\
    s = 91%N :: ds ++ 93%N :: ws ++ rest.

(** [a] stands somewhere before [b] in [l]. *)
Definition precedes (A : Type) (a b : A) (l : list A) : Prop :=
  exists l1 l2 l3, l = l1 ++ a :: l2 ++ b :: l3.

(** A collation is consistent when it is antisymmetric in sign and its
    "not after" is transitive; ECMA-262 asks as much of a comparator. *)
Definition consistent (localeCompare : jsstring -> jsstring -> Z) : Prop :=
  (forall a b, Z.sgn (localeCompare b a) = (- Z.sgn (localeCompare a b))%Z) /\
  (forall a b c, (localeCompare a b <= 0)%Z -> (localeCompare b c <= 0)%Z ->
                 (localeCompare a c <= 0)%Z).

(** Items in order: by sort order, ties by the collation of display names. *)
Definition itemLe (localeCompare : jsstring -> jsstring -> Z)
  (a b : ContentType) : Prop :=
  (sortOrder a < sortOrder b)%Z \/
  (sortOrder a = sortOrder b /\
   (localeCompare (displayName a) (displayName b) <= 0)%Z).

(** Groups in order: by sort order, ties by the collation of names. *)
Definition groupLe (localeCompare : jsstring -> jsstring -> Z)
  (a b : ContentTypeGroup) : Prop :=
  number_ltb (gsortOrder a) (gsortOrder b) = true \/
  (gsortOrder a = gsortOrder b /\
   (localeCompare (gname a) (gname b) <= 0)%Z).

(** The key under which [organizeByGroups] files a descriptor. *)
Definition groupKey (ct : ContentType) : jsstring :=
  orElse (group ct) General.

(** A config object with every field named [k] taken away. *)
Definition withoutField (k : jsstring) (fields : list (jsstring * JsValue))
  : list (jsstring * JsValue) :=
  filter (fun e => negb (str_eqb (fst e) k)) fields.

(** A listing record for the examples. *)
Definition listed (u n d : String.string) (k : Kind) : RawContentType :=
  {| raw_uid := js u;
     apiID := js n;
     schema := {| schema_displayName := Some (js d); schema_kind := k |} |}.

(** A two-record listing whose explicit hint exceeds the sentinel. *)
Definition largeHintListing : list RawContentType :=
  [ listed "api::post.post" "post" "[5000] Blog | Post" collectionType;
    listed "api::category.category" "category" "Blog | Category" collectionType ].

(** The invariant of the group map: no key twice, no array empty. *)
Definition wellFormed (m : GroupMap) : Prop :=
  NoDup (map fst m) /\ Forall (fun e => snd e <> []) m.

(** The node at a path. *)
Fixpoint nodeAt (n : Node) (p : Path) : option Node :=
  match p with
  | [] => Some n
  | k :: p' =>
      match n with
      | Element _ _ cs =>
          match nth_error cs k with
          | Some c => nodeAt c p'
          | None => None
          end
      | Text _ => None
      end
  end.

(** Three descriptors, two of them of one group. *)
Definition sampleDescriptors : list ContentType :=
  formatContentTypes (js " | ")
    (Some [ listed "api::post.post" "post" "[2] Blog | Post" collectionType;
            listed "api::about.about" "about" "[7] About" singleType;
            listed "api::category.category" "category" "Blog | Category"
                   collectionType ]).


(** Three groups of orders 5 and 3 and, named "General", 1000. *)
Definition scenarioDescriptors : list ContentType :=
  formatContentTypes (js " | ")
    (Some [ listed "api::e.e" "e" "[5] Events | List" collectionType;
            listed "api::s.s" "s" "[3] Shop | Item" collectionType;
            listed "api::g.g" "g" "[1000] General | Misc" singleType ]).

(** A group of two single-kind and two collection-kind items. *)
Definition mixedDescriptors : list ContentType :=
  formatContentTypes (js " | ")
    (Some [ listed "api::a.a" "a" "[1] Site | Header" singleType;
            listed "api::b.b" "b" "[4] Site | Pages" collectionType;
            listed "api::c.c" "c" "[3] Site | Footer" singleType;
            listed "api::d.d" "d" "[2] Site | Posts" collectionType ]).

(** A listing whose explicit hint is below the sentinel. *)
Definition smallHintListing : list RawContentType :=
  [ listed "api::category.category" "category" "Blog | Category" collectionType;
    listed "api::post.post" "post" "[2] Blog | Post" collectionType ].

(** A host page: a navigation landmark with the two category lists. *)
Definition hostDocument : Node :=
  Element (js "html") []
    [ Element (js "body") []
        [ Element (js "nav") [(js "aria-label", js "Content Manager")]
            [ Element (js "ol") []
                [ Element (js "li") []
                    [ Text (js "Collection Types");
                      Element (js "ol") [] [ Element (js "li") [] [] ] ];
                  Element (js "li") [] [ Text (js "Single Types") ] ] ] ] ].

(* ================================================================== *)
(** * Further parts of the source *)
(* ================================================================== *)

(** [window.location.pathname.includes(contentType.uid)], the test by which
    every link component decides that it is active. *)
Definition isActive (pathname : jsstring) (contentType : ContentType) : bool :=
  includes pathname (uid contentType).

(** What [V5ContentTypeGroupSection] renders: nothing, one flat link
    ([asMain]), or a collapsible list with its label, whether the mount
    effect expanded it, and its links. *)
Inductive V5Section :=
| V5Nothing
| V5Flat (link : ContentType)
| V5Collapsible (label : jsstring) (expanded : bool) (links : list ContentType).

(** [V5ContentTypeGroupSection], after its mount effect: [expanded] starts
    [false] and the effect sets it when a link is active. *)
Definition V5ContentTypeGroupSection (pathname : jsstring)
  (g : ContentTypeGroup) : V5Section :=
  if (length (items g) =? 0)%nat then V5Nothing
  else
    match allTypes g with
    | [only] => V5Flat only
    | links => V5Collapsible (gname g) (existsb (isActive pathname) links) links
    end.

(** [value] of [AccordionNavigation]: the name of the first group that holds
    an active item, [undefined] when there is none. *)
Definition accordionDefaultValue (pathname : jsstring)
  (groups : list ContentTypeGroup) : option jsstring :=
  option_map gname
    (find (fun g => existsb (isActive pathname) (items g)) groups).

(** What [NavigationApp] returns. *)
Inductive Rendered :=
| RenderedNull
| RenderedFragment
| RenderedNavigation (t : Template) (groups : list ContentTypeGroup).

(** The [return] of [NavigationApp], from its state. *)
Definition NavigationApp_render (groups : list ContentTypeGroup)
  (isSearching : bool) (template : JsValue) : Rendered :=
  if (length groups =? 0)%nat then RenderedNull
  else if negb isSearching
       then RenderedNavigation (selectTemplate template) groups
       else RenderedFragment.

(** The groups [fetchContentTypes] hands to [setGroups], from the listing
    and the permissions it fetched. *)
Definition fetchContentTypes_groups (localeCompare : jsstring -> jsstring -> Z)
  (delimiter : jsstring) (data : option (list RawContentType))
  (permissions : list Permission) : option (list ContentTypeGroup) :=
  organizeByGroups localeCompare
    (allowedContentTypes permissions (formatContentTypes delimiter data)).

(** The container [processNavigation] creates. *)
Definition navContainer : Node :=
  Element (js "li")
          [(js "id", containerId); (js "class", js "stack-navigation")]
          [].

(** The ordered lists of the navigation root, among which
    [setupNavigationReplacement] looks for its mount point. *)
Definition listsOf (nav : Path * Node) : list (Path * Node) :=
  querySelectorAllIn (fst nav) (snd nav) (fun n => hasTag n (js "ol")).

(** The delimiter does not occur in [g ++ delimiter ++ rest] before the end
    of [g]: an occurrence that starts inside [g] would lie within [g]
    followed by all but the last code unit of the delimiter. *)
Definition firstOccurrenceAfter (g delimiter : jsstring) : Prop :=
  includes (g ++ removelast delimiter) delimiter = false.

(** A descriptor to run the renderers with. *)
Definition descriptor (u d : String.string) (k : Kind) (order : Z)
  : ContentType :=
  {| uid := js u; name := js u; displayName := js d; group := Some (js "Site");
     isDisplayed := true; href := js u; kind := k; sortOrder := order |}.

(** Every item of the map is filed under its own key. *)
Definition filedByKey (m : GroupMap) : Prop :=
  Forall (fun e => Forall (fun i => groupKey i = fst e) (snd e)) m.

(** No key of the map is a property name of [Object.prototype]. *)
Definition keysOwnOnly (m : GroupMap) : Prop :=
  Forall (fun e => isInherited (fst e) = false) m.

(** The guard [/^\[\d+\]/] under which the interval callback and
    [cleanNavigationItems] clean a text. *)
Definition testHintPrefix (text : jsstring) : bool :=
  match text with
  | c :: t =>
      N.eqb c 91
      && match takeWhile isDigit t, dropWhile isDigit t with
         | _ :: _, b :: _ => N.eqb b 93
         | _, _ => false
         end
  | [] => false
  end.

(** The assignments made to [el.style.display], the latest first; the
    element is named by its path.  The functions below assign styles and
    leave the tree of the document as it is. *)
Definition Styles := list (Path * jsstring).

Fixpoint path_eqb (p q : Path) : bool :=
  match p, q with
  | [], [] => true
  | x :: p', y :: q' => Nat.eqb x y && path_eqb p' q'
  | _, _ => false
  end.

(** The value last assigned to the display of the element at [p], if any. *)
Fixpoint displayOf (styles : Styles) (p : Path) : option jsstring :=
  match styles with
  | [] => None
  | (q, v) :: rest => if path_eqb q p then Some v else displayOf rest p
  end.

(** [els.forEach(el => el.style.display = v)] *)
Definition setDisplayEach (v : jsstring) (els : list Path) (styles : Styles)
  : Styles :=
  fold_left (fun s p => (p, v) :: s) els styles.

(** The tokens of a [class] attribute, which ASCII whitespace separates. *)
Definition isAsciiWhitespace (c : codeUnit) : bool :=
  (N.eqb c 9 || N.eqb c 10 || N.eqb c 12 || N.eqb c 13 || N.eqb c 32)%N.

Fixpoint tokens (s cur : jsstring) : list jsstring :=
  match s with
  | [] => match cur with [] => [] | _ => [rev cur] end
  | c :: s' =>
      if isAsciiWhitespace c
      then match cur with
           | [] => tokens s' []
           | _ => rev cur :: tokens s' []
           end
      else tokens s' (c :: cur)
  end.

(** [el.classList.contains(cls)] *)
Definition classListContains (el : Node) (cls : jsstring) : bool :=
  match el with
  | Element _ attributes _ =>
      match getAttribute attributes (js "class") with
      | Some v => existsb (str_eqb cls) (tokens v [])
      | None => false
      end
  | Text _ => false
  end.

(** [/^\d+$/] *)
Definition allDigits (s : jsstring) : bool :=
  match s with
  | [] => false
  | _ => forallb isDigit s
  end.

(** [el.parentElement], by paths. *)
Definition parentPath (p : Path) : option Path :=
  match p with
  | [] => None
  | _ => Some (removelast p)
  end.

(** The test by which [hideCollectionHeaders] of [NavigationApp] takes an
    ancestor of a category label for the header row. *)
Definition isHeaderRow (at_ : Path) (parent : Node) : bool :=
  classListContains parent (js "hvPsis")
  || (hasTag parent (js "div")
      && match querySelectorIn at_ parent (fun n => hasTag n (js "span")) with
         | Some span => allDigits (textContent (snd span))
         | None => false
         end).

(** The loop [for (let i = 0; i < 5 && parent; i++)]: the first header row
    among the ancestors, [fuel] levels up at most. *)
Fixpoint headerRowAbove (fuel : nat) (document : Node) (parent : option Path)
  : option Path :=
  match fuel, parent with
  | S fuel', Some q =>
      match nodeAt document q with
      | Some el =>
          if isHeaderRow q el then Some q
          else headerRowAbove fuel' document (parentPath q)
      | None => None
      end
  | _, _ => None
  end.

(** The two tiers by which [NavigationApp] looks for the navigation root. *)
Definition findNavOfApp (document : Node) : option (Path * Node) :=
  match querySelector document navQuery with
  | Some nav => Some nav
  | None => querySelector document (fun n => hasTag n (js "nav"))
  end.

Definition isCategoryLabel (span : Node) : bool :=
  str_eqb (trim (textContent span)) (js "Collection Types")
  || str_eqb (trim (textContent span)) (js "Single Types").

(** The elements whose display [hideCollectionHeaders] assigns, in the order
    of the assignments. *)
Definition headerRows (document : Node) : list Path :=
  match findNavOfApp document with
  | None => []
  | Some nav =>
      flat_map
        (fun span =>
           if isCategoryLabel (snd span)
           then match headerRowAbove 5 document (parentPath (fst span)) with
                | Some q => [q]
                | None => []
                end
           else [])
        (querySelectorAllIn (fst nav) (snd nav) (fun n => hasTag n (js "span")))
  end.

(** [hideCollectionHeaders(hide)] of [NavigationApp]. *)
Definition hideCollectionHeaders (hide : bool) (document : Node)
  (styles : Styles) : Styles :=
  setDisplayEach (if hide then js "none" else js "") (headerRows document)
                 styles.

(** [el.children], each with its path. *)
Definition childrenOf (at_ : Path) (el : Node) : list (Path * Node) :=
  match el with
  | Element _ _ cs =>
      filter (fun e => isElement (snd e))
             (map (fun kc => (at_ ++ [fst kc], snd kc))
                  (combine (seq 0 (length cs)) cs))
  | Text _ => []
  end.

(** [otherNavs] of [toggleIsSearching]: the [li] children of the lists of
    the navigation root, the container apart. *)
Definition otherNavs (document : Node) : list Path :=
  match findNavOfApp document with
  | None => []
  | Some nav =>
      flat_map
        (fun ol =>
           map fst
               (filter (fun e => hasTag (snd e) (js "li")
                                 && negb (hasId containerId (snd e)))
                       (childrenOf (fst ol) (snd ol))))
        (listsOf nav)
  end.

(** [customNavItems] of [toggleIsSearching]: the [li] elements inside the
    container. *)
Definition customNavItems (document : Node) : list Path :=
  match getElementById document containerId with
  | Some customNavContainer =>
      map fst (querySelectorAllIn (fst customNavContainer)
                 (snd customNavContainer) (fun n => hasTag n (js "li")))
  | None => []
  end.

(** What [toggleIsSearching] writes: the styles and the state
    [isSearching] of [NavigationApp]. *)
Record SearchState := {
  styles : Styles;
  isSearchingState : bool
}.

(** [toggleIsSearching(isSearching)] *)
Definition toggleIsSearching (isSearching : bool) (document : Node)
  (st : SearchState) : SearchState :=
  match findNavOfApp document with
  | None => st
  | Some _ =>
      let s1 :=
        setDisplayEach (if isSearching then js "initial" else js "none")
                       (otherNavs document) (styles st) in
      let s2 := hideCollectionHeaders (negb isSearching) document s1 in
      let s3 :=
        setDisplayEach (if isSearching then js "none" else js "")
                       (customNavItems document) s2 in
      {| styles := s3; isSearchingState := isSearching |}
  end.


(** A host page after the mount and the first render of two groups. *)
Definition mountedDocument : Node :=
  Element (js "html") []
    [ Element (js "body") []
        [ Element (js "nav") [(js "aria-label", js "Content Manager")]
            [ Element (js "ol") []
                [ Element (js "li")
                    [(js "id", containerId); (js "class", js "stack-navigation")]
                    [ Element (js "div") []
                        [ Element (js "ol") []
                            [ Element (js "li") [] [ Text (js "Blog") ];
                              Element (js "li") [] [ Text (js "About") ] ] ] ];
                  Element (js "li") []
                    [ Element (js "div") [(js "class", js "x hvPsis")]
                        [ Element (js "span") [] [ Text (js "Collection Types") ];
                          Element (js "span") [] [ Text (js "3") ] ];
                      Element (js "ol") [] [ Element (js "li") [] [] ] ];
                  Element (js "li") [] [ Text (js "Single Types") ] ] ] ] ].

(** Whether an assignment was made to the element at [p]. *)
Definition assigned (els : list Path) (p : Path) : bool :=
  existsb (fun q => path_eqb q p) els.

(** The globals of [window] that the start-up functions read and write,
    with counts of what they set going: [navigationInitialized] is
    [undefined] at first; a handle of [setInterval] is a positive number;
    [headerObservers] counts the observers [setupHeaderCleaning] has
    created (none is ever disconnected) and [mountRuns] the runs of
    [setupNavigationReplacement]. *)
Record Window := {
  navigationInitialized : option bool;
  checkNavigationInterval : option positive;
  intervals : nat;
  headerObservers : nat;
  mountRuns : nat
}.

Definition freshWindow : Window :=
  {| navigationInitialized := None; checkNavigationInterval := None;
     intervals := 0; headerObservers := 0; mountRuns := 0 |}.

(** [buildNavigation()], on the globals. *)
Definition buildNavigation (w : Window) : Window :=
  {| navigationInitialized :=
       Some (match navigationInitialized w with Some b => b | None => false end);
     checkNavigationInterval := checkNavigationInterval w;
     intervals := intervals w;
     headerObservers := S (headerObservers w);
     mountRuns := S (mountRuns w) |}.

(** [setupContinuousNavigationCheck()], on the globals. *)
Definition setupContinuousNavigationCheck (w : Window) : Window :=
  match navigationInitialized w with
  | Some true => w
  | _ =>
      {| navigationInitialized := Some true;
         checkNavigationInterval :=
           match checkNavigationInterval w with
           | Some h => Some h
           | None => Some (Pos.of_succ_nat (intervals w))
           end;
         intervals :=
           match checkNavigationInterval w with
           | Some _ => intervals w
           | None => S (intervals w)
           end;
         headerObservers := S (headerObservers w);
         mountRuns := S (mountRuns w) |}
  end.

(** The two entry points of the start-up: the [register] of the admin
    plugin calls [buildNavigation], the module itself calls
    [setupContinuousNavigationCheck]. *)
Inductive StartUp := Build | Continuous.

Definition startUp (w : Window) (call : StartUp) : Window :=
  match call with
  | Build => buildNavigation w
  | Continuous => setupContinuousNavigationCheck w
  end.

Definition isBuild (call : StartUp) : bool :=
  match call with Build => true | Continuous => false end.

Definition isContinuous (call : StartUp) : bool :=
  match call with Build => false | Continuous => true end.

(** How often a sequence of calls runs the set-up of
    [setupContinuousNavigationCheck], from the globals [w]. *)
Definition setUps (w : Window) (calls : list StartUp) : nat :=
  match navigationInitialized w with
  | Some true => 0
  | _ => if existsb isContinuous calls then 1 else 0
  end.

(* ================================================================== *)
(** * Properties of the string primitives *)
(* ================================================================== *)

Unset Implicit Arguments.

Lemma str_eqb_eq (a b : jsstring) : str_eqb a b = true <-> a = b.
Proof.
  revert b; induction a as [|x a IH]; intros [|y b]; simpl;
    try (split; (discriminate || reflexivity)).
  rewrite andb_true_iff, N.eqb_eq, IH.
  split; [intros [-> ->]; reflexivity | intros H; inversion H; auto].
Qed.

Lemma str_eqb_refl (a : jsstring) : str_eqb a a = true.
Proof. apply str_eqb_eq; reflexivity. Qed.

Lemma str_eqb_neq (a b : jsstring) : str_eqb a b = false <-> a <> b.
Proof.
  rewrite <- str_eqb_eq. destruct (str_eqb a b); split; congruence.
Qed.

Lemma str_eqb_sym (a b : jsstring) : str_eqb a b = str_eqb b a.
Proof.
  destruct (str_eqb a b) eqn:E.
  - apply str_eqb_eq in E; subst; symmetry; apply str_eqb_refl.
  - symmetry; apply str_eqb_neq; apply str_eqb_neq in E; congruence.
Qed.

Lemma startsWith_app (p r : jsstring) : startsWith (p ++ r) p = true.
Proof.
  induction p as [|x p IH]; simpl; [destruct r; reflexivity|].
  rewrite N.eqb_refl; exact IH.
Qed.

Lemma startsWith_inv (s p : jsstring) :
  startsWith s p = true -> exists r, s = p ++ r.
Proof.
  revert s; induction p as [|x p IH]; intros s H.
  - exists s; reflexivity.
  - destruct s as [|y s]; simpl in H; [discriminate|].
    apply andb_true_iff in H; destruct H as [E H].
    apply N.eqb_eq in E; subst y.
    destruct (IH _ H) as [r ->]; exists r; reflexivity.
Qed.

Lemma includes_nil (s : jsstring) : includes s [] = true.
Proof. destruct s; reflexivity. Qed.

Lemma includes_startsWith (s sub : jsstring) :
  startsWith s sub = true -> includes s sub = true.
Proof. intros H; destruct s; simpl in *; rewrite H; reflexivity. Qed.

Lemma includes_app (a d r : jsstring) : includes (a ++ d ++ r) d = true.
Proof.
  induction a as [|x a IH]; simpl.
  - apply includes_startsWith, startsWith_app.
  - rewrite IH; apply orb_true_r.
Qed.

Lemma includes_false_cons (c : codeUnit) (s sub : jsstring) :
  includes (c :: s) sub = false ->
  startsWith (c :: s) sub = false /\ includes s sub = false.
Proof. simpl; intros H; apply orb_false_iff in H; exact H. Qed.

Lemma take_drop_While (p : codeUnit -> bool) (s : jsstring) :
  s = takeWhile p s ++ dropWhile p s.
Proof.
  induction s as [|c s IH]; simpl; [reflexivity|].
  destruct (p c); simpl; [f_equal; exact IH | reflexivity].
Qed.

Lemma takeWhile_all (p : codeUnit -> bool) (s : jsstring) :
  Forall (fun c => p c = true) (takeWhile p s).
Proof.
  induction s as [|c s IH]; simpl; [constructor|].
  destruct (p c) eqn:E; [constructor; assumption | constructor].
Qed.

Lemma takeWhile_app_stop (p : codeUnit -> bool) (a : jsstring) c (r : jsstring) :
  Forall (fun x => p x = true) a -> p c = false ->
  takeWhile p (a ++ c :: r) = a /\ dropWhile p (a ++ c :: r) = c :: r.
Proof.
  intros Ha Hc; induction Ha as [|x a Hx _ IH]; simpl.
  - rewrite Hc; auto.
  - rewrite Hx; destruct IH as [E1 E2]; rewrite E1, E2; auto.
Qed.



(* ================================================================== *)
(** * Properties of the normalizer *)
(* ================================================================== *)

Lemma matchSortPrefix_hint (ds tail : jsstring) :
  ds <> [] -> Forall (fun c => isDigit c = true) ds ->
  matchSortPrefix (91%N :: ds ++ 93%N :: tail) = Some (ds, trimStart tail).
Proof.
  intros Hne Hds; unfold matchSortPrefix.
  destruct (@takeWhile_app_stop isDigit ds 93%N tail Hds eq_refl) as [E1 E2].
  rewrite E1, E2; destruct ds; [contradiction | reflexivity].
Qed.

Lemma matchSortPrefix_Some (s ds rest : jsstring) :
  matchSortPrefix s = Some (ds, rest) ->
  exists tail, ds <> [] /\ Forall (fun c => isDigit c = true) ds /\
               s = 91%N :: ds ++ 93%N :: tail /\ rest = trimStart tail.
Proof.
  unfold matchSortPrefix; intros H.
  destruct s as [|c t]; [discriminate|].
  destruct (N.eqb_spec c 91) as [->|Hc]; [|discriminate].
  pose proof (take_drop_While isDigit t) as Ht.
  pose proof (takeWhile_all isDigit t) as Hall.
  destruct (takeWhile isDigit t) as [|d ds'] eqn:Et; [discriminate|].
  destruct (dropWhile isDigit t) as [|b r]; [discriminate|].
  destruct (N.eqb_spec b 93) as [->|Hb]; [|discriminate].
  inversion H; subst ds rest; clear H.
  exists r; repeat split; [discriminate | assumption | now rewrite Ht].
Qed.

Lemma matchSortPrefix_None (s : jsstring) :
  matchSortPrefix s = None <-> ~ hasHintPrefix s.
Proof.
  split.
  - intros H (ds & tail & Hne & Hds & ->).
    rewrite matchSortPrefix_hint in H by assumption; discriminate.
  - intros H; destruct (matchSortPrefix s) as [[ds rest]|] eqn:E; [|reflexivity].
    exfalso; apply H.
    destruct (matchSortPrefix_Some _ _ _ E) as (tail & ? & ? & ? & _).
    exists ds, tail; auto.
Qed.

Lemma extractSortOrder_hint (ds tail : jsstring) (def : Z) :
  ds <> [] -> Forall (fun c => isDigit c = true) ds ->
  extractSortOrder (91%N :: ds ++ 93%N :: tail) def
  = (decimalValue ds, trimStart tail).
Proof.
  intros Hne Hds; unfold extractSortOrder.
  rewrite matchSortPrefix_hint by assumption; reflexivity.
Qed.

Lemma extractSortOrder_no_hint (s : jsstring) (def : Z) :
  ~ hasHintPrefix s -> extractSortOrder s def = (def, s).
Proof.
  intros H; apply matchSortPrefix_None in H.
  unfold extractSortOrder; rewrite H; reflexivity.
Qed.

(** C4 (as amended).  A display name that begins with a bracketed run of
    digits, whether or not whitespace follows, yields the integer the digits
    write (within the exact range of JavaScript integers) as the sort order
    and, as the display name, what follows the hint with its leading
    whitespace removed; every display name that does not begin with such a
    hint yields the default sort order and is left unchanged. *)
Theorem extractSortOrder_spec :
  (forall ds tail def,
      ds <> [] -> Forall (fun c => isDigit c = true) ds ->
      (decimalValue ds <= MAX_SAFE_INTEGER)%Z ->
      extractSortOrder (91%N :: ds ++ 93%N :: tail) def
      = (decimalValue ds, trimStart tail))
  /\ (forall s def,
         ~ hasHintPrefix s -> extractSortOrder s def = (def, s)).
Proof.
  split.
  - intros ds tail def Hne Hds _; apply extractSortOrder_hint; assumption.
  - apply extractSortOrder_no_hint.
Qed.

Lemma isDigit_51 : Forall (fun c => isDigit c = true) [51%N].
Proof. repeat constructor. Qed.

Lemma extractSortOrder_spec_witness :
  extractSortOrder (js "[3]   Blog | Post") 1002 = (3%Z, js "Blog | Post")
  /\ extractSortOrder (js "Blog | Post") 1002 = (1002%Z, js "Blog | Post").
Proof.
  split.
  - apply (proj1 extractSortOrder_spec [51%N] (js "   Blog | Post") 1002%Z).
    + discriminate.
    + exact isDigit_51.
    + vm_compute; discriminate.
  - apply (proj2 extractSortOrder_spec (js "Blog | Post") 1002%Z).
    intros (ds & tail & _ & _ & H); discriminate H.
Defined.

(** C4 fails as stated: ["[3]Foo"] is not of the form "[N] rest" with
    whitespace after the hint, and yet it is not left unchanged with the
    default sort order: the hint is read and removed. *)
Lemma hint_without_whitespace_is_read :
  ~ hasHintThenSpace (js "[3]Foo")
  /\ extractSortOrder (js "[3]Foo") 999 = (3%Z, js "Foo")
  /\ extractSortOrder (js "[3]Foo") 999 <> (999%Z, js "[3]Foo").
Proof.
  split; [|split; [reflexivity | discriminate]].
  intros (ds & ws & rest & _ & Hds & Hws & Hsp & H).
  vm_compute in H.
  destruct ds as [|d ds]; [discriminate H|].
  destruct ds as [|d2 ds].
  - destruct ws as [|w ws]; [contradiction|].
    simpl in H; inversion H; subst.
    inversion Hsp; discriminate.
  - simpl in H; inversion H; subst.
    inversion Hds as [|? ? _ Hds']; inversion Hds'; discriminate.
Qed.

Lemma formatContentType_sortOrder (delimiter : jsstring) (def : Z)
  (ct : RawContentType) :
  sortOrder (formatContentType delimiter def ct)
  = fst (extractSortOrder (rawDisplayName ct) def).
Proof.
  unfold formatContentType.
  destruct (extractSortOrder (rawDisplayName ct) def); reflexivity.
Qed.

Lemma formatContentType_group (delimiter : jsstring) (def : Z)
  (ct : RawContentType) :
  group (formatContentType delimiter def ct)
  = getContentTypeGroup delimiter
      (snd (extractSortOrder (rawDisplayName ct) def)).
Proof.
  unfold formatContentType.
  destruct (extractSortOrder (rawDisplayName ct) def); reflexivity.
Qed.

Lemma formatContentType_displayName (delimiter : jsstring) (def : Z)
  (ct : RawContentType) :
  let clean := snd (extractSortOrder (rawDisplayName ct) def) in
  let prefix := toString (getContentTypeGroup delimiter clean) ++ delimiter in
  displayName (formatContentType delimiter def ct)
  = if startsWith clean prefix then slice clean (length prefix) else clean.
Proof.
  unfold formatContentType.
  destruct (extractSortOrder (rawDisplayName ct) def); reflexivity.
Qed.

Lemma formatContentTypes_In (delimiter : jsstring)
  (records : list RawContentType) (ct : RawContentType) :
  In ct records -> isRetained ct = true ->
  In (formatContentType delimiter (Z.of_nat (length records) + 1000) ct)
     (formatContentTypes delimiter (Some records)).
Proof.
  intros Hin Hr; unfold formatContentTypes.
  apply in_map, filter_In; auto.
Qed.

(** C8.  The sentinel of the unhinted descriptors is the length of the raw
    list, counted before the namespace filter, plus 1000: a record the filter
    drops still raises the sentinel of the descriptors that survive. *)
Theorem sentinel_counts_unfiltered_records :
  forall delimiter records,
    (forall ct,
        In ct records -> isRetained ct = true ->
        ~ hasHintPrefix (rawDisplayName ct) ->
        let d := formatContentType delimiter
                   (Z.of_nat (length records) + 1000) ct in
        In d (formatContentTypes delimiter (Some records))
        /\ sortOrder d = (Z.of_nat (length records) + 1000)%Z)
    /\ (forall dropped,
           isRetained dropped = false ->
           formatContentTypes delimiter (Some (dropped :: records))
           = map (formatContentType delimiter
                    (Z.of_nat (length records) + 1 + 1000))
                 (filter isRetained records)).
Proof.
  intros delimiter records; split.
  - intros ct Hin Hr Hno d; split.
    + apply formatContentTypes_In; assumption.
    + unfold d; rewrite formatContentType_sortOrder.
      rewrite extractSortOrder_no_hint by assumption; reflexivity.
  - intros dropped Hd; unfold formatContentTypes.
    cbn [filter length]; rewrite Hd.
    replace (Z.of_nat (S (length records)) + 1000)%Z
      with (Z.of_nat (length records) + 1 + 1000)%Z by lia.
    reflexivity.
Qed.

Lemma sentinel_counts_unfiltered_records_witness :
  map (fun d => (name d, sortOrder d))
      (formatContentTypes (js " | ")
         (Some [ listed "admin::user" "user" "User" collectionType;
                 listed "api::page.page" "page" "Page" singleType ]))
  = [ (js "page", 1002%Z) ].
Proof.
  pose proof (sentinel_counts_unfiltered_records (js " | ")
                [ listed "api::page.page" "page" "Page" singleType ]) as [_ H].
  rewrite (H (listed "admin::user" "user" "User" collectionType) eq_refl).
  reflexivity.
Defined.

(* ================================================================== *)
(** * Properties of [Array_sort] *)
(* ================================================================== *)

Section ArraySortFacts.
Context {A : Type}.
Variable compare : A -> A -> Z.

Let le (x y : A) : Prop := (compare x y <= 0)%Z.

Lemma insertSorted_perm (x : A) (l : list A) :
  Permutation (insertSorted compare x l) (x :: l).
Proof.
  induction l as [|y l IH]; simpl; [apply Permutation_refl|].
  destruct (compare x y <=? 0)%Z; [apply Permutation_refl|].
  eapply perm_trans; [apply perm_skip, IH | apply perm_swap].
Qed.

Lemma Array_sort_perm (l : list A) : Permutation (Array_sort compare l) l.
Proof.
  induction l as [|x l IH]; simpl; [constructor|].
  eapply perm_trans; [apply insertSorted_perm | apply perm_skip, IH].
Qed.

Lemma Array_sort_In (x : A) (l : list A) :
  In x (Array_sort compare l) <-> In x l.
Proof.
  split; apply Permutation_in;
    [apply Array_sort_perm | apply Permutation_sym, Array_sort_perm].
Qed.

Lemma Array_sort_length (l : list A) :
  length (Array_sort compare l) = length l.
Proof. apply Permutation_length, Array_sort_perm. Qed.

Lemma Array_sort_singleton (x : A) : Array_sort compare [x] = [x].
Proof. reflexivity. Qed.

Hypothesis compare_total :
  forall x y, (0 < compare x y)%Z -> (compare y x <= 0)%Z.
Hypothesis compare_trans :
  forall x y z, le x y -> le y z -> le x z.

Lemma insertSorted_sorted (x : A) (l : list A) :
  StronglySorted le l -> StronglySorted le (insertSorted compare x l).
Proof.
  induction 1 as [|y l Hs IH Hy]; simpl.
  - repeat constructor.
  - destruct (Z.leb_spec (compare x y) 0) as [Hle|Hgt].
    + constructor; [constructor; assumption|].
      constructor; [exact Hle|].
      eapply Forall_impl; [|exact Hy].
      intros z Hz; exact (compare_trans _ _ _ Hle Hz).
    + constructor; [exact IH|].
      apply Forall_forall; intros z Hz.
      apply (Permutation_in _ (insertSorted_perm x l)) in Hz.
      destruct Hz as [<-|Hz].
      * apply compare_total; exact Hgt.
      * rewrite Forall_forall in Hy; auto.
Qed.

Lemma Array_sort_sorted (l : list A) :
  StronglySorted le (Array_sort compare l).
Proof.
  induction l as [|x l IH]; simpl;
    [constructor | apply insertSorted_sorted, IH].
Qed.
End ArraySortFacts.

Section SortedFacts.
Context {A : Type}.
Variable R : A -> A -> Prop.

Lemma StronglySorted_filter (f : A -> bool) (l : list A) :
  StronglySorted R l -> StronglySorted R (filter f l).
Proof.
  induction 1 as [|x l Hs IH Hx]; simpl; [constructor|].
  destruct (f x); [|exact IH].
  constructor; [exact IH|].
  apply Forall_forall; intros y Hy; apply filter_In in Hy.
  rewrite Forall_forall in Hx; apply Hx, Hy.
Qed.

Lemma StronglySorted_weaken (R' : A -> A -> Prop) (P : A -> Prop)
  (l : list A) :
  (forall a b, P a -> P b -> R a b -> R' a b) ->
  Forall P l -> StronglySorted R l -> StronglySorted R' l.
Proof.
  intros HR HP Hs; induction Hs as [|x l Hs IH Hx]; [constructor|].
  inversion HP as [|? ? Px Pl]; subst.
  constructor; [apply IH, Pl|].
  rewrite Forall_forall in *; intros y Hy; apply HR; auto.
Qed.

Lemma StronglySorted_app_inv_mid (l1 : list A) (a : A) (l2 : list A)
  (b : A) (l3 : list A) :
  StronglySorted R (l1 ++ a :: l2 ++ b :: l3) -> R a b.
Proof.
  induction l1 as [|x l1 IH]; simpl; intros Hs.
  - inversion Hs as [|? ? _ Ha]; subst.
    rewrite Forall_forall in Ha; apply Ha.
    apply in_or_app; right; left; reflexivity.
  - inversion Hs; subst; apply IH; assumption.
Qed.

Lemma StronglySorted_precedes (a b : A) (l : list A) :
  StronglySorted R l -> In a l -> In b l -> a <> b -> ~ R b a ->
  precedes a b l.
Proof.
  intros Hs; induction Hs as [|x l Hs IH Hx]; intros Ha Hb Hne Hnot.
  - destruct Ha.
  - destruct Ha as [->|Ha], Hb as [->|Hb].
    + congruence.
    + destruct (in_split _ _ Hb) as (l2 & l3 & ->).
      exists [], l2, l3; reflexivity.
    + rewrite Forall_forall in Hx; exfalso; apply Hnot, Hx, Ha.
    + destruct (IH Ha Hb Hne Hnot) as (l1 & l2 & l3 & ->).
      exists (x :: l1), l2, l3; reflexivity.
Qed.
End SortedFacts.

(* ================================================================== *)
(** * Properties of the group map *)
(* ================================================================== *)

Lemma ownProperty_Some_In (m : GroupMap) (k : jsstring) (a : list ContentType) :
  ownProperty m k = Some a -> In (k, a) m.
Proof.
  induction m as [|[k' a'] m IH]; simpl; [discriminate|].
  destruct (str_eqb k' k) eqn:E.
  - apply str_eqb_eq in E; subst; intros H; inversion H; auto.
  - auto.
Qed.

Lemma ownProperty_None_notin (m : GroupMap) (k : jsstring) :
  ownProperty m k = None -> ~ In k (map fst m).
Proof.
  induction m as [|[k' a'] m IH]; simpl; [tauto|].
  destruct (str_eqb k' k) eqn:E; [discriminate|].
  apply str_eqb_neq in E; intros H [H1|H1]; [contradiction | exact (IH H H1)].
Qed.

Lemma ownProperty_app_None (m m2 : GroupMap) (k : jsstring) :
  ownProperty m k = None -> ownProperty (m ++ m2) k = ownProperty m2 k.
Proof.
  induction m as [|[k' a'] m IH]; simpl; [reflexivity|].
  destruct (str_eqb k' k); [discriminate | exact IH].
Qed.

Lemma pushTo_app_None (m m2 : GroupMap) (k : jsstring) (ct : ContentType) :
  ownProperty m k = None -> pushTo (m ++ m2) k ct = m ++ pushTo m2 k ct.
Proof.
  induction m as [|[k' a'] m IH]; simpl; [reflexivity|].
  destruct (str_eqb k' k); [discriminate|].
  intros H; rewrite (IH H); reflexivity.
Qed.

Lemma pushTo_keys (m : GroupMap) (k : jsstring) (ct : ContentType) :
  map fst (pushTo m k ct) = map fst m.
Proof.
  induction m as [|[k' a'] m IH]; simpl; [reflexivity|].
  destruct (str_eqb k' k); simpl; [reflexivity | f_equal; exact IH].
Qed.

Lemma pushTo_nonempty (m : GroupMap) (k : jsstring) (ct : ContentType) :
  Forall (fun e => snd e <> []) m ->
  Forall (fun e => snd e <> []) (pushTo m k ct).
Proof.
  induction 1 as [|[k' a'] m Hx Hm IH]; simpl; [constructor|].
  destruct (str_eqb k' k); constructor; simpl; auto.
  intros H; apply app_eq_nil in H; destruct H; discriminate.
Qed.

(** What a successful [addToGroup] did: it pushed to an array the map owned,
    or it created the array of a key that is neither owned nor inherited. *)
Lemma addToGroup_Some (m m' : GroupMap) (ct : ContentType) :
  addToGroup m ct = Some m' ->
  (exists a, ownProperty m (groupKey ct) = Some a
             /\ m' = pushTo m (groupKey ct) ct)
  \/ (ownProperty m (groupKey ct) = None
      /\ isInherited (groupKey ct) = false
      /\ m' = m ++ [(groupKey ct, [ct])]).
Proof.
  intros H; unfold addToGroup, getProperty in H.
  fold General in H; fold (groupKey ct) in H.
  destruct (ownProperty m (groupKey ct)) as [a|] eqn:E.
  - rewrite E in H; inversion H; left; exists a; auto.
  - destruct (isInherited (groupKey ct)) eqn:Ei.
    + rewrite E in H; discriminate.
    + rewrite (ownProperty_app_None _ _ _ E) in H; simpl in H.
      rewrite str_eqb_refl in H; inversion H; right.
      rewrite (pushTo_app_None _ _ _ _ E); simpl.
      rewrite str_eqb_refl; auto.
Qed.

Lemma addToGroup_returns (m : GroupMap) (ct : ContentType) :
  isInherited (groupKey ct) = false -> exists m', addToGroup m ct = Some m'.
Proof.
  intros Hi; unfold addToGroup, getProperty; fold General; fold (groupKey ct).
  destruct (ownProperty m (groupKey ct)) as [a|] eqn:E.
  - rewrite E; eauto.
  - rewrite Hi, (ownProperty_app_None _ _ _ E); simpl.
    rewrite str_eqb_refl; eauto.
Qed.

Lemma addToGroup_wellFormed (m m' : GroupMap) (ct : ContentType) :
  wellFormed m -> addToGroup m ct = Some m' -> wellFormed m'.
Proof.
  intros [Hnd Hne] H.
  destruct (addToGroup_Some _ _ _ H) as [(a & _ & ->)|(E & _ & ->)]; split.
  - rewrite pushTo_keys; exact Hnd.
  - apply pushTo_nonempty, Hne.
  - rewrite map_app; simpl.
    apply Permutation_NoDup with (l := groupKey ct :: map fst m).
    + apply Permutation_cons_append.
    + constructor; [exact (ownProperty_None_notin _ _ E) | exact Hnd].
  - apply Forall_app; split; [exact Hne|].
    constructor; [simpl; discriminate | constructor].
Qed.

Lemma forEachAdd_wellFormed (cts : list ContentType) :
  forall m m', wellFormed m -> forEachAdd m cts = Some m' -> wellFormed m'.
Proof.
  induction cts as [|ct cts IH]; simpl; intros m m' Hm H.
  - inversion H; subst; exact Hm.
  - destruct (addToGroup m ct) as [m1|] eqn:E; [|discriminate].
    exact (IH _ _ (addToGroup_wellFormed _ _ _ Hm E) H).
Qed.

Lemma forEachAdd_returns (cts : list ContentType) :
  forall m,
    (forall ct, In ct cts -> isInherited (groupKey ct) = false) ->
    exists m', forEachAdd m cts = Some m'.
Proof.
  induction cts as [|ct cts IH]; simpl; intros m H; [eauto|].
  destruct (addToGroup_returns m ct (H ct (or_introl eq_refl))) as [m1 ->].
  apply IH; auto.
Qed.

Lemma wellFormed_nil : wellFormed [].
Proof. split; constructor. Qed.

Lemma filter_partition_perm {A : Type} (f : A -> bool) (l : list A) :
  Permutation (filter f l ++ filter (fun x => negb (f x)) l) l.
Proof.
  induction l as [|x l IH]; simpl; [constructor|].
  destruct (f x); simpl.
  - apply perm_skip, IH.
  - apply Permutation_sym, Permutation_cons_app, Permutation_sym, IH.
Qed.

Lemma Object_entries_perm (m : GroupMap) : Permutation (Object_entries m) m.
Proof.
  unfold Object_entries.
  eapply perm_trans; [|apply (filter_partition_perm (fun e => isArrayIndex (fst e)))].
  apply Permutation_app_tail, Array_sort_perm.
Qed.

Lemma sortItems_keys (lc : list N -> list N -> Z) (m : GroupMap) :
  map fst (sortItems lc m) = map fst m.
Proof. unfold sortItems; rewrite map_map; reflexivity. Qed.

(** Every group of the output is an array of the group map, sorted, under
    its key. *)
Lemma organizeByGroups_In (lc : list N -> list N -> Z)
  (cts : list ContentType) (gs : list ContentTypeGroup) (g : ContentTypeGroup) :
  organizeByGroups lc cts = Some gs -> In g gs ->
  exists m k a,
    forEachAdd [] cts = Some m /\ In (k, a) m /\
    g = toGroup (k, Array_sort (compareItems lc) a).
Proof.
  unfold organizeByGroups; intros H Hg.
  destruct (forEachAdd [] cts) as [m|]; [|discriminate].
  inversion H; subst gs; clear H.
  apply Array_sort_In, in_map_iff in Hg; destruct Hg as (e & <- & He).
  apply (Permutation_in _ (Object_entries_perm _)) in He.
  unfold sortItems in He; apply in_map_iff in He.
  destruct He as ([k a] & <- & He).
  exists m, k, a; auto.
Qed.

Lemma organizeByGroups_names (lc : list N -> list N -> Z)
  (cts : list ContentType) (gs : list ContentTypeGroup) :
  organizeByGroups lc cts = Some gs -> NoDup (map gname gs).
Proof.
  unfold organizeByGroups; intros H.
  destruct (forEachAdd [] cts) as [m|] eqn:E; [|discriminate].
  inversion H; subst gs; clear H.
  destruct (forEachAdd_wellFormed _ _ _ wellFormed_nil E) as [Hnd _].
  eapply Permutation_NoDup; [|exact Hnd].
  apply Permutation_sym.
  eapply perm_trans; [apply Permutation_map, Array_sort_perm|].
  rewrite map_map; simpl.
  change (fun x : list N * list ContentType => fst x)
    with (@fst (list N) (list ContentType)).
  eapply perm_trans; [apply Permutation_map, Object_entries_perm|].
  rewrite sortItems_keys; apply Permutation_refl.
Qed.

Lemma organizeByGroups_returns (lc : list N -> list N -> Z)
  (cts : list ContentType) :
  (forall ct, In ct cts -> isInherited (groupKey ct) = false) ->
  exists gs, organizeByGroups lc cts = Some gs.
Proof.
  intros H; unfold organizeByGroups.
  destruct (forEachAdd_returns cts [] H) as [m ->]; eauto.
Qed.

(* ================================================================== *)
(** * Properties of the comparators *)
(* ================================================================== *)

Lemma number_eqb_eq (a b : number) : number_eqb a b = true <-> a = b.
Proof.
  destruct a as [x|], b as [y|]; simpl;
    try (split; (discriminate || reflexivity)).
  rewrite Z.eqb_eq; split; [intros ->; reflexivity | intros H; inversion H; auto].
Qed.

Lemma Math_min_nonempty (l : list Z) :
  l <> [] ->
  exists m, Math_min l = Finite m /\ In m l /\ Forall (fun y => (m <= y)%Z) l.
Proof.
  induction l as [|z l IH]; [congruence|]; intros _.
  destruct l as [|z' l].
  - exists z; simpl; repeat split; auto.
    constructor; [lia | constructor].
  - destruct IH as (m & Hm & Hin & Hall); [discriminate|].
    change (Math_min (z :: z' :: l))
      with (number_min (Finite z) (Math_min (z' :: l))).
    rewrite Hm; unfold number_min, number_ltb.
    destruct (Z.ltb_spec m z).
    + exists m; repeat split; [right; exact Hin|].
      constructor; [lia | exact Hall].
    + exists z; repeat split; [left; reflexivity|].
      constructor; [lia|].
      eapply Forall_impl; [|exact Hall]; simpl; intros; lia.
Qed.

Section ComparatorFacts.
Variable lc : list N -> list N -> Z.
Hypothesis lc_consistent : consistent lc.

Lemma lc_total (a b : list N) : (0 < lc a b)%Z -> (lc b a <= 0)%Z.
Proof.
  destruct lc_consistent as [Hs _]; intros H.
  specialize (Hs a b); lia.
Qed.

Lemma compareItems_le (a b : ContentType) :
  (compareItems lc a b <= 0)%Z <-> itemLe lc a b.
Proof.
  unfold compareItems, itemLe.
  destruct (Z.eqb_spec (sortOrder a) (sortOrder b)); simpl; lia.
Qed.

Lemma compareItems_total (x y : ContentType) :
  (0 < compareItems lc x y)%Z -> (compareItems lc y x <= 0)%Z.
Proof.
  unfold compareItems.
  destruct (Z.eqb_spec (sortOrder x) (sortOrder y)) as [E|E];
    destruct (Z.eqb_spec (sortOrder y) (sortOrder x)); simpl; try lia.
  apply lc_total.
Qed.

Lemma compareItems_trans (x y z : ContentType) :
  (compareItems lc x y <= 0)%Z -> (compareItems lc y z <= 0)%Z ->
  (compareItems lc x z <= 0)%Z.
Proof.
  rewrite !compareItems_le; unfold itemLe.
  destruct lc_consistent as [_ Ht].
  intros [H1|[H1 H1']] [H2|[H2 H2']]; try (left; lia).
  right; split; [lia | eapply Ht; eassumption].
Qed.

Lemma compareGroups_General (a b : ContentTypeGroup) :
  gname b = General -> (compareGroups lc a b <= 0)%Z -> gname a = General.
Proof.
  unfold compareGroups; intros Hb.
  destruct (str_eqb (gname a) General) eqn:Ea; [apply str_eqb_eq in Ea; auto|].
  rewrite Hb, str_eqb_refl; lia.
Qed.

Lemma compareGroups_le (a b : ContentTypeGroup) :
  gname a <> General -> gname b <> General ->
  ((compareGroups lc a b <= 0)%Z <-> groupLe lc a b).
Proof.
  intros Ha Hb; unfold compareGroups, groupLe.
  apply str_eqb_neq in Ha, Hb; rewrite Ha, Hb.
  destruct (number_eqb (gsortOrder a) (gsortOrder b)) eqn:E; simpl.
  - apply number_eqb_eq in E; rewrite E; split; [auto|].
    intros [H|[_ H]]; [|exact H].
    destruct (gsortOrder b); simpl in H; [lia | discriminate].
  - destruct (number_ltb (gsortOrder a) (gsortOrder b)); split;
      try lia; auto.
    intros [H|[H _]]; [discriminate|].
    apply number_eqb_eq in H; congruence.
Qed.

Lemma compareGroups_total (x y : ContentTypeGroup) :
  (0 < compareGroups lc x y)%Z -> (compareGroups lc y x <= 0)%Z.
Proof.
  unfold compareGroups.
  destruct (str_eqb (gname x) General); [lia|].
  destruct (str_eqb (gname y) General); [lia|].
  destruct (gsortOrder x) as [a|], (gsortOrder y) as [b|]; simpl;
    try lia; try apply lc_total.
  rewrite (Z.eqb_sym b a).
  destruct (Z.eqb_spec a b); simpl; [apply lc_total|].
  destruct (Z.ltb_spec a b), (Z.ltb_spec b a); lia.
Qed.

Lemma compareGroups_trans (x y z : ContentTypeGroup) :
  (compareGroups lc x y <= 0)%Z -> (compareGroups lc y z <= 0)%Z ->
  (compareGroups lc x z <= 0)%Z.
Proof.
  destruct lc_consistent as [_ Ht].
  unfold compareGroups.
  destruct (str_eqb (gname x) General); [lia|].
  destruct (str_eqb (gname y) General); [lia|].
  destruct (str_eqb (gname z) General); [lia|].
  destruct (gsortOrder x) as [a|], (gsortOrder y) as [b|],
           (gsortOrder z) as [c|]; simpl; try lia; try apply Ht.
  destruct (Z.eqb_spec a b), (Z.eqb_spec b c), (Z.eqb_spec a c); simpl;
    try lia; try apply Ht;
    destruct (Z.ltb_spec a b), (Z.ltb_spec b c), (Z.ltb_spec a c); lia.
Qed.

Lemma items_sorted (l : list ContentType) :
  StronglySorted (itemLe lc) (Array_sort (compareItems lc) l).
Proof.
  eapply StronglySorted_weaken with (P := fun _ => True).
  - intros a b _ _ H; apply compareItems_le; exact H.
  - apply Forall_forall; auto.
  - apply Array_sort_sorted; [apply compareItems_total | apply compareItems_trans].
Qed.
End ComparatorFacts.

Lemma codeUnitCompare_consistent : consistent codeUnitCompare.
Proof.
  split.
  - induction a as [|x a IH]; intros [|y b]; simpl; try reflexivity.
    destruct (N.ltb_spec x y), (N.ltb_spec y x); simpl; try lia.
    apply IH.
  - induction a as [|x a IH]; intros [|y b] [|z c]; simpl; try lia.
    destruct (N.ltb_spec x y), (N.ltb_spec y x), (N.ltb_spec y z),
             (N.ltb_spec z y), (N.ltb_spec x z), (N.ltb_spec z x);
      simpl; try lia.
    apply IH.
Qed.

Lemma filter_app_cons_inv {A : Type} (f : A -> bool) (l1 : list A) (x : A)
  (r : list A) :
  forall l, filter f l = l1 ++ x :: r ->
            exists l0 l', l = l0 ++ x :: l' /\ filter f l' = r.
Proof.
  induction l1 as [|y l1 IH]; simpl.
  - induction l as [|z l IHl]; simpl; [discriminate|].
    destruct (f z) eqn:E.
    + intros H; inversion H; subst; exists [], l; auto.
    + intros H; destruct (IHl H) as (l0 & l' & -> & Hr).
      exists (z :: l0), l'; auto.
  - induction l as [|z l IHl]; simpl; [discriminate|].
    destruct (f z) eqn:E.
    + intros H; inversion H; subst.
      destruct (IH _ H2) as (l0 & l' & -> & Hr).
      exists (y :: l0), l'; auto.
    + intros H; destruct (IHl H) as (l0 & l' & -> & Hr).
      exists (z :: l0), l'; auto.
Qed.

(** A filter keeps the order of what it keeps. *)
Lemma precedes_filter {A : Type} (f : A -> bool) (a b : A) (l : list A) :
  precedes a b (filter f l) -> precedes a b l.
Proof.
  intros (l1 & l2 & l3 & H).
  destruct (filter_app_cons_inv f l1 a _ l H) as (l0 & l' & -> & H').
  destruct (filter_app_cons_inv f l2 b _ l' H') as (l0' & l'' & -> & _).
  exists l0, l0', l''; reflexivity.
Qed.

(* ================================================================== *)
(** * The grouping engine *)
(* ================================================================== *)

Lemma organizeByGroups_sorted (lc : list N -> list N -> Z)
  (cts : list ContentType) (gs : list ContentTypeGroup) :
  consistent lc -> organizeByGroups lc cts = Some gs ->
  StronglySorted (fun a b => (compareGroups lc a b <= 0)%Z) gs.
Proof.
  unfold organizeByGroups; intros Hc H.
  destruct (forEachAdd [] cts) as [m|]; [|discriminate].
  inversion H; subst gs.
  apply Array_sort_sorted;
    [apply compareGroups_total | apply compareGroups_trans]; exact Hc.
Qed.

Lemma organizeByGroups_items (lc : list N -> list N -> Z)
  (cts : list ContentType) (gs : list ContentTypeGroup) (g : ContentTypeGroup) :
  organizeByGroups lc cts = Some gs -> In g gs ->
  items g <> []
  /\ gsortOrder g = Math_min (map sortOrder (items g))
  /\ exists a, items g = Array_sort (compareItems lc) a.
Proof.
  intros H Hg.
  destruct (organizeByGroups_In _ _ _ _ H Hg) as (m & k & a & Hm & Hin & ->).
  destruct (forEachAdd_wellFormed _ _ _ wellFormed_nil Hm) as [_ Hne].
  rewrite Forall_forall in Hne; specialize (Hne _ Hin); simpl in *.
  repeat split; [|eauto].
  intros E; apply (f_equal (@length _)) in E.
  rewrite Array_sort_length in E; destruct a; [congruence | discriminate].
Qed.

(** C10.  Every group the grouping engine produces holds at least one item,
    so no group section takes its empty-group branch on the engine's output;
    and the engine does produce its groups whenever no group key is a
    property name of [Object.prototype]. *)
Theorem groups_are_never_empty :
  forall lc cts,
    ((forall ct, In ct cts -> isInherited (groupKey ct) = false) ->
     exists gs, organizeByGroups lc cts = Some gs)
    /\ (forall gs g,
           organizeByGroups lc cts = Some gs -> In g gs ->
           items g <> [] /\ (1 <= length (items g))%nat
           /\ ContentTypeGroupSection g = Some (allTypes g)).
Proof.
  intros lc cts; split; [apply organizeByGroups_returns|].
  intros gs g H Hg.
  destruct (organizeByGroups_items _ _ _ _ H Hg) as (Hne & _).
  unfold ContentTypeGroupSection.
  destruct (items g) as [|i l]; [congruence|].
  repeat split; [discriminate | simpl; lia].
Qed.

Lemma groups_are_never_empty_witness :
  exists gs,
    organizeByGroups codeUnitCompare sampleDescriptors = Some gs
    /\ Forall (fun g => items g <> []) gs.
Proof.
  destruct (groups_are_never_empty codeUnitCompare sampleDescriptors)
    as [Hret Hne].
  destruct Hret as [gs Hgs].
  - intros ct Hin; vm_compute in Hin.
    repeat (destruct Hin as [<-|Hin]; [reflexivity|]); destruct Hin.
  - exists gs; split; [exact Hgs|].
    apply Forall_forall; intros g Hg; apply (Hne gs g Hgs Hg).
Defined.

(** C3.  Under a consistent collation, a group named "General" stands first
    in the output whenever there is one, whatever its sort order; the other
    groups are in ascending order of their sort order, ties in the order of
    the collation of their names; and the sort order of a group is the least
    sort order among its items. *)
Theorem groups_are_ordered :
  forall lc, consistent lc ->
  forall cts gs, organizeByGroups lc cts = Some gs ->
    (forall g, In g gs -> gname g = General -> exists rest, gs = g :: rest)
    /\ StronglySorted (groupLe lc)
         (filter (fun g => negb (str_eqb (gname g) General)) gs)
    /\ (forall g, In g gs ->
          exists m, gsortOrder g = Finite m
                    /\ (exists i, In i (items g) /\ sortOrder i = m)
                    /\ (forall i, In i (items g) -> (m <= sortOrder i)%Z)).
Proof.
  intros lc Hc cts gs H.
  pose proof (organizeByGroups_sorted _ _ _ Hc H) as Hs.
  pose proof (organizeByGroups_names _ _ _ H) as Hnd.
  split; [|split].
  - intros g Hg Hname.
    destruct gs as [|g0 rest]; [destruct Hg|].
    destruct Hg as [->|Hg]; [eauto|exfalso].
    inversion Hs as [|? ? _ Hall]; subst.
    rewrite Forall_forall in Hall.
    pose proof (compareGroups_General lc _ _ Hname (Hall _ Hg)) as H0.
    simpl in Hnd; inversion Hnd as [|? ? Hnot _]; subst.
    apply Hnot; rewrite H0, <- Hname; apply in_map, Hg.
  - eapply StronglySorted_weaken
      with (P := fun g => gname g <> General);
      [| |apply StronglySorted_filter, Hs].
    + intros a b Ha Hb Hab; apply compareGroups_le; assumption.
    + apply Forall_forall; intros g Hg; apply filter_In in Hg.
      destruct Hg as [_ Hg]; apply negb_true_iff, str_eqb_neq in Hg; exact Hg.
  - intros g Hg.
    destruct (organizeByGroups_items _ _ _ _ H Hg) as (Hne & Hmin & _).
    destruct (Math_min_nonempty (map sortOrder (items g))) as (m & Hm & Hin & Hall).
    + destruct (items g); [congruence | discriminate].
    + exists m; rewrite Hmin; split; [exact Hm|split].
      * apply in_map_iff in Hin; destruct Hin as (i & Hi & Hin); eauto.
      * intros i Hi; rewrite Forall_forall in Hall.
        apply Hall, in_map, Hi.
Qed.

Lemma groups_are_ordered_witness :
  option_map (map (fun g => (gname g, gsortOrder g)))
             (organizeByGroups codeUnitCompare scenarioDescriptors)
  = Some [ (js "General", Finite 1000); (js "Shop", Finite 3);
           (js "Events", Finite 5) ]
  /\ exists gs g rest,
       organizeByGroups codeUnitCompare scenarioDescriptors = Some gs
       /\ gname g = General /\ gs = g :: rest.
Proof.
  split; [reflexivity|].
  destruct (organizeByGroups codeUnitCompare scenarioDescriptors)
    as [gs|] eqn:E; [|discriminate E].
  pose proof (groups_are_ordered codeUnitCompare codeUnitCompare_consistent
                scenarioDescriptors gs E) as (Hfirst & _ & _).
  vm_compute in E; inversion E as [E']; clear E.
  match type of E' with ?g :: ?r = _ =>
    exists gs, g, r; rewrite <- E'; repeat split
  end.
Defined.

(** C2.  Under a consistent collation, the list a group section renders
    from a group of the engine is its collection-kind items followed by its
    single-kind items; each of the two parts keeps the order of the engine,
    which is ascending in sort order with ties in the order of the collation
    of display names. *)
Theorem rendered_items_are_partitioned_in_order :
  forall lc, consistent lc ->
  forall cts gs g, organizeByGroups lc cts = Some gs -> In g gs ->
    ContentTypeGroupSection g = Some (collectionTypes g ++ singleTypes g)
    /\ Forall (fun i => kind i = collectionType) (collectionTypes g)
    /\ Forall (fun i => kind i = singleType) (singleTypes g)
    /\ StronglySorted (itemLe lc) (items g)
    /\ StronglySorted (itemLe lc) (collectionTypes g)
    /\ StronglySorted (itemLe lc) (singleTypes g)
    /\ (forall a b, precedes a b (collectionTypes g) -> precedes a b (items g))
    /\ (forall a b, precedes a b (singleTypes g) -> precedes a b (items g))
    /\ Permutation (collectionTypes g ++ singleTypes g) (items g).
Proof.
  intros lc Hc cts gs g H Hg.
  destruct (organizeByGroups_items _ _ _ _ H Hg) as (Hne & _ & a & Ha).
  assert (Hs : StronglySorted (itemLe lc) (items g))
    by (rewrite Ha; apply items_sorted, Hc).
  repeat split.
  - unfold ContentTypeGroupSection.
    destruct (items g); [congruence | reflexivity].
  - apply Forall_forall; intros i Hi; apply filter_In in Hi.
    destruct Hi as [_ Hi]; destruct (kind i); [reflexivity | discriminate].
  - apply Forall_forall; intros i Hi; apply filter_In in Hi.
    destruct Hi as [_ Hi]; destruct (kind i); [discriminate | reflexivity].
  - exact Hs.
  - apply StronglySorted_filter, Hs.
  - apply StronglySorted_filter, Hs.
  - intros x y; apply precedes_filter.
  - intros x y; apply precedes_filter.
  - unfold collectionTypes, singleTypes.
    eapply perm_trans; [|apply (filter_partition_perm
                                  (fun i => Kind_eqb (kind i) collectionType))].
    apply Permutation_app_head.
    rewrite (filter_ext (fun i => Kind_eqb (kind i) singleType)
               (fun i => negb (Kind_eqb (kind i) collectionType)));
      [apply Permutation_refl|].
    intros i; destruct (kind i); reflexivity.
Qed.

Lemma rendered_items_are_partitioned_in_order_witness :
  exists gs g,
    organizeByGroups codeUnitCompare mixedDescriptors = Some gs
    /\ In g gs
    /\ map name (items g) = [js "a"; js "d"; js "c"; js "b"]
    /\ option_map (map name) (ContentTypeGroupSection g)
       = Some [js "d"; js "b"; js "a"; js "c"]
    /\ StronglySorted (itemLe codeUnitCompare) (collectionTypes g).
Proof.
  destruct (organizeByGroups codeUnitCompare mixedDescriptors)
    as [gs|] eqn:E; [|discriminate E].
  destruct gs as [|g gs']; [discriminate E|].
  exists (g :: gs'), g.
  pose proof (rendered_items_are_partitioned_in_order codeUnitCompare
                codeUnitCompare_consistent mixedDescriptors (g :: gs') g E
                (or_introl eq_refl)) as (_ & _ & _ & _ & Hs & _).
  vm_compute in E; inversion E; subst g gs'.
  repeat split; [left; reflexivity | exact Hs].
Defined.

(** C1 fails as stated: in a listing of two records the sentinel is 1002,
    which the explicit hint 5000 exceeds, and the unhinted item of the group
    is sorted before the hinted one. *)
Lemma sentinel_below_large_hint :
  map (fun d => (name d, group d, sortOrder d))
      (formatContentTypes (js " | ") (Some largeHintListing))
  = [ (js "post", Some (js "Blog"), 5000%Z);
      (js "category", Some (js "Blog"), 1002%Z) ]
  /\ option_map (map (fun g => (gname g, map name (items g))))
       (organizeByGroups codeUnitCompare
          (formatContentTypes (js " | ") (Some largeHintListing)))
     = Some [ (js "Blog", [js "category"; js "post"]) ].
Proof. split; reflexivity. Qed.

(** C1 (as amended).  Every retained record whose display name has no
    leading bracketed-integer hint gets the sort order total-item-count +
    1000; and under a consistent collation, within a group, such an item
    stands after every item whose explicit hint is smaller than that
    sentinel, never before it. *)
Theorem unhinted_items_follow_smaller_hints :
  forall lc, consistent lc ->
  forall delimiter records,
    let sentinel := (Z.of_nat (length records) + 1000)%Z in
    let normalize := formatContentType delimiter sentinel in
    (forall ct,
        In ct records -> isRetained ct = true ->
        ~ hasHintPrefix (rawDisplayName ct) ->
        In (normalize ct) (formatContentTypes delimiter (Some records))
        /\ sortOrder (normalize ct) = sentinel)
    /\ (forall hinted unhinted ds tail cts gs g,
           rawDisplayName hinted = 91%N :: ds ++ 93%N :: tail ->
           ds <> [] -> Forall (fun c => isDigit c = true) ds ->
           (decimalValue ds < sentinel)%Z ->
           ~ hasHintPrefix (rawDisplayName unhinted) ->
           organizeByGroups lc cts = Some gs -> In g gs ->
           In (normalize hinted) (items g) ->
           In (normalize unhinted) (items g) ->
           precedes (normalize hinted) (normalize unhinted) (items g)
           /\ ~ precedes (normalize unhinted) (normalize hinted) (items g)).
Proof.
  intros lc Hc delimiter records sentinel normalize; split.
  - intros ct Hin Hr Hno; split.
    + apply formatContentTypes_In; assumption.
    + unfold normalize; rewrite formatContentType_sortOrder.
      rewrite extractSortOrder_no_hint by assumption; reflexivity.
  - intros hinted unhinted ds tail cts gs g Hname Hne Hds Hlt Hno H Hg Hh Hu.
    assert (Hsh : sortOrder (normalize hinted) = decimalValue ds).
    { unfold normalize; rewrite formatContentType_sortOrder, Hname.
      rewrite extractSortOrder_hint by assumption; reflexivity. }
    assert (Hsu : sortOrder (normalize unhinted) = sentinel).
    { unfold normalize; rewrite formatContentType_sortOrder.
      rewrite extractSortOrder_no_hint by assumption; reflexivity. }
    assert (Hnot : ~ itemLe lc (normalize unhinted) (normalize hinted)).
    { unfold itemLe; rewrite Hsh, Hsu; lia. }
    destruct (organizeByGroups_items _ _ _ _ H Hg) as (_ & _ & a & Ha).
    assert (Hs : StronglySorted (itemLe lc) (items g))
      by (rewrite Ha; apply items_sorted, Hc).
    split.
    + apply (StronglySorted_precedes (itemLe lc)); auto.
      intros E; rewrite E in Hsh; lia.
    + intros (l1 & l2 & l3 & E); rewrite E in Hs.
      apply Hnot, (StronglySorted_app_inv_mid _ _ _ _ _ _ Hs).
Qed.

Lemma isDigit_50 : Forall (fun c => isDigit c = true) [50%N].
Proof. repeat constructor. Qed.

Lemma unhinted_items_follow_smaller_hints_witness :
  exists g,
    organizeByGroups codeUnitCompare
      (formatContentTypes (js " | ") (Some smallHintListing)) = Some [g]
    /\ map (fun d => (name d, sortOrder d)) (items g)
       = [ (js "post", 2%Z); (js "category", 1002%Z) ]
    /\ precedes
         (formatContentType (js " | ") 1002
            (listed "api::post.post" "post" "[2] Blog | Post" collectionType))
         (formatContentType (js " | ") 1002
            (listed "api::category.category" "category" "Blog | Category"
                    collectionType))
         (items g).
Proof.
  destruct (organizeByGroups codeUnitCompare
              (formatContentTypes (js " | ") (Some smallHintListing)))
    as [gs|] eqn:E; [|discriminate E].
  destruct gs as [|g gs']; [discriminate E|].
  destruct gs' as [|g' gs']; [|discriminate E].
  exists g; split; [reflexivity|].
  pose proof (unhinted_items_follow_smaller_hints codeUnitCompare
                codeUnitCompare_consistent (js " | ") smallHintListing) as [_ H].
  assert (Hno : ~ hasHintPrefix (js "Blog | Category"))
    by (intros (ds & tail & _ & _ & E'); discriminate E').
  assert (Hlt : (decimalValue [50%N] < 1002)%Z) by reflexivity.
  assert (Hne : [50%N] <> []) by discriminate.
  pose proof (H (listed "api::post.post" "post" "[2] Blog | Post" collectionType)
                (listed "api::category.category" "category" "Blog | Category"
                        collectionType)
                [50%N] (js " Blog | Post") _ [g] g eq_refl
                Hne isDigit_50 Hlt Hno E (or_introl eq_refl)) as Hpre.
  vm_compute in E; inversion E; subst g; clear E.
  split; [reflexivity|].
  apply Hpre; [left; reflexivity | right; left; reflexivity].
Defined.

(* ================================================================== *)
(** * The permission gate *)
(* ================================================================== *)


Lemma allowedContentTypes_no_permissions (cts : list ContentType) :
  allowedContentTypes [] cts = cts.
Proof. reflexivity. Qed.



(* ================================================================== *)
(** * Names without a delimiter *)
(* ================================================================== *)






(* ================================================================== *)
(** * Configuration resolution *)
(* ================================================================== *)

Lemma lookupField_withoutField_same (k : list N)
  (fields : list (list N * JsValue)) :
  lookupField (withoutField k fields) k = JUndefined.
Proof.
  induction fields as [|[k' v] fields IH]; simpl; [reflexivity|].
  destruct (str_eqb k' k) eqn:E; simpl; [exact IH|].
  rewrite E; exact IH.
Qed.

Lemma lookupField_withoutField_other (k k0 : list N)
  (fields : list (list N * JsValue)) :
  k0 <> k ->
  lookupField (withoutField k fields) k0 = lookupField fields k0.
Proof.
  intros Hne; induction fields as [|[k' v] fields IH]; simpl; [reflexivity|].
  destruct (str_eqb k' k) eqn:E; simpl.
  - apply str_eqb_eq in E; subst k'.
    apply not_eq_sym, str_eqb_neq in Hne; rewrite Hne; exact IH.
  - rewrite IH; reflexivity.
Qed.

Lemma jsOr_falsy (a b : JsValue) : truthy a = false -> jsOr a b = b.
Proof. unfold jsOr; intros ->; reflexivity. Qed.

Lemma jsOr_truthy (a b : JsValue) : truthy b = true -> truthy (jsOr a b) = true.
Proof. unfold jsOr; intros H; destruct (truthy a) eqn:E; assumption. Qed.

Lemma truthy_not_empty (v : JsValue) : truthy v = true -> v <> JString [].
Proof. intros H E; subst v; discriminate H. Qed.

(** C9.  A config object whose [delimiter] (or [template]) is present but
    falsy resolves exactly as the object without that field: the field takes
    the value of the environment variable, or else the built-in default.  So
    the resolved delimiter and template are always truthy, and never the
    empty string. *)
Theorem falsy_config_fields_fall_back :
  forall envDelimiter envTemplate,
    (forall fields,
        truthy (lookupField fields (js "delimiter")) = false ->
        delimiter (getPluginConfig envDelimiter envTemplate
                     (Some (JObject fields)))
        = jsOr (envValue envDelimiter) (JString defaultDelimiter)
        /\ getPluginConfig envDelimiter envTemplate (Some (JObject fields))
           = getPluginConfig envDelimiter envTemplate
               (Some (JObject (withoutField (js "delimiter") fields))))
    /\ (forall fields,
           truthy (lookupField fields (js "template")) = false ->
           template (getPluginConfig envDelimiter envTemplate
                       (Some (JObject fields)))
           = jsOr (envValue envTemplate)
                  (JString (templateName defaultTemplate))
           /\ getPluginConfig envDelimiter envTemplate (Some (JObject fields))
              = getPluginConfig envDelimiter envTemplate
                  (Some (JObject (withoutField (js "template") fields))))
    /\ (forall response,
           let config := getPluginConfig envDelimiter envTemplate response in
           truthy (delimiter config) = true
           /\ truthy (template config) = true
           /\ delimiter config <> JString []
           /\ template config <> JString []).
Proof.
  intros envDelimiter envTemplate; split; [|split].
  - intros fields H; unfold getPluginConfig; simpl.
    rewrite lookupField_withoutField_same.
    rewrite (lookupField_withoutField_other (js "delimiter") (js "template"))
      by discriminate.
    rewrite (jsOr_falsy _ _ H); split; reflexivity.
  - intros fields H; unfold getPluginConfig; simpl.
    rewrite lookupField_withoutField_same.
    rewrite (lookupField_withoutField_other (js "template") (js "delimiter"))
      by discriminate.
    rewrite (jsOr_falsy _ _ H); split; reflexivity.
  - intros response config.
    assert (Hd : truthy (delimiter config) = true).
    { unfold config, getPluginConfig.
      destruct (truthy match response with Some v => v | None => JObject [] end);
        simpl; repeat apply jsOr_truthy; reflexivity. }
    assert (Ht : truthy (template config) = true).
    { unfold config, getPluginConfig.
      destruct (truthy match response with Some v => v | None => JObject [] end);
        simpl; repeat apply jsOr_truthy; reflexivity. }
    auto using truthy_not_empty.
Qed.

Lemma falsy_config_fields_fall_back_witness :
  getPluginConfig None None
    (Some (JObject [ (js "delimiter", JString []); (js "template", JNull) ]))
  = {| delimiter := JString (js " | "); template := JString (js "accordion") |}
  /\ getPluginConfig (Some (js " / ")) None
       (Some (JObject [ (js "delimiter", JString []) ]))
     = getPluginConfig (Some (js " / ")) None (Some (JObject [])).
Proof.
  split; [reflexivity|].
  exact (proj2 (proj1 (falsy_config_fields_fall_back (Some (js " / ")) None)
                  [ (js "delimiter", JString []) ] eq_refl)).
Defined.

(* ================================================================== *)
(** * The mount operation *)
(* ================================================================== *)

(** Induction on a node, with the property at hand for all children. *)
Lemma Node_induction (P : Node -> Prop)
  (HT : forall d, P (Text d))
  (HE : forall t a cs, Forall P cs -> P (Element t a cs)) :
  forall n, P n.
Proof.
  fix IH 1; intros [t a cs|d]; [|apply HT].
  apply HE; induction cs as [|c cs IHcs]; constructor; [apply IH | exact IHcs].
Qed.

Lemma filter_prefix_length (f : Node -> bool) (k : nat) (l : list (Path * Node)) :
  length (filter (fun e => f (snd e))
            (map (fun e : Path * Node => (k :: fst e, snd e)) l))
  = length (filter (fun e => f (snd e)) l).
Proof.
  induction l as [|e l IH]; simpl; [reflexivity|].
  destruct (f (snd e)); simpl; auto.
Qed.

Lemma childElements_count (i : list N) (cs : list Node) :
  Forall (fun c => countId i c
                   = length (filter (fun e => hasId i (snd e)) (elements c))) cs ->
  forall k,
    length (filter (fun e => hasId i (snd e)) (childElements elements k cs))
    = list_sum (map (countId i) cs).
Proof.
  induction 1 as [|c cs Hc _ IH]; intros k; simpl; [reflexivity|].
  rewrite filter_app, length_app, filter_prefix_length, IH, Hc; reflexivity.
Qed.

Lemma elements_count (i : list N) (n : Node) :
  countId i n = length (filter (fun e => hasId i (snd e)) (elements n)).
Proof.
  induction n as [d|t a cs IH] using Node_induction; [reflexivity|].
  cbn [countId elements filter snd].
  rewrite <- (childElements_count i cs IH 0).
  destruct (hasId i (Element t a cs)); reflexivity.
Qed.

Lemma find_None_filter {A : Type} (f : A -> bool) (l : list A) :
  find f l = None -> filter f l = [].
Proof.
  induction l as [|x l IH]; simpl; [reflexivity|].
  destruct (f x); [discriminate | exact IH].
Qed.

Lemma filter_nil_find {A : Type} (f : A -> bool) (l : list A) :
  filter f l = [] -> find f l = None.
Proof.
  induction l as [|x l IH]; simpl; [reflexivity|].
  destruct (f x); [discriminate | exact IH].
Qed.

Lemma getElementById_None_count (d : Node) (i : list N) :
  getElementById d i = None <-> countId i d = 0%nat.
Proof.
  unfold getElementById, querySelector; rewrite elements_count; split.
  - intros H; rewrite (find_None_filter _ _ H); reflexivity.
  - intros H; apply filter_nil_find, length_zero_iff_nil, H.
Qed.

Lemma list_sum_replaceNth_le (c : Node -> nat) (f : Node -> Node) (q : nat)
  (cs : list Node) :
  (forall x, (c (f x) <= c x + q)%nat) ->
  forall k,
    (list_sum (map c (replaceNth k f cs)) <= list_sum (map c cs) + q)%nat.
Proof.
  intros Hf; induction cs as [|x cs IH]; intros [|k]; simpl; try lia.
  - specialize (Hf x); lia.
  - specialize (IH k); lia.
Qed.

Lemma list_sum_replaceNth_eq (c : Node -> nat) (f : Node -> Node) (q : nat)
  (cs : list Node) :
  forall k x,
    nth_error cs k = Some x -> c (f x) = (c x + q)%nat ->
    list_sum (map c (replaceNth k f cs)) = (list_sum (map c cs) + q)%nat.
Proof.
  induction cs as [|y cs IH]; intros [|k] x; simpl; try discriminate.
  - intros H E; inversion H; subst; lia.
  - intros H E; rewrite (IH k x H E); lia.
Qed.

(** Prepending a node adds at most the elements of that node. *)
Lemma prependAt_count_le (i : list N) (new : Node) (p : Path) :
  forall n, (countId i (prependAt p new n) <= countId i n + countId i new)%nat.
Proof.
  induction p as [|k p IH]; intros [t a cs|d]; simpl; try lia.
  pose proof (list_sum_replaceNth_le (countId i) (prependAt p new)
                (countId i new) cs IH k).
  lia.
Qed.

(** Prepending to an element of the document adds exactly them. *)
Lemma prependAt_count_eq (i : list N) (new : Node) (p : Path) :
  forall n m,
    nodeAt n p = Some m -> isElement m = true ->
    countId i (prependAt p new n) = (countId i n + countId i new)%nat.
Proof.
  induction p as [|k p IH]; intros [t a cs|d] m; simpl; try discriminate.
  - intros _ _; lia.
  - intros H; inversion H; subst; discriminate.
  - destruct (nth_error cs k) as [c|] eqn:E; [|discriminate].
    intros H Hm.
    rewrite (list_sum_replaceNth_eq (countId i) (prependAt p new)
               (countId i new) cs k c E (IH c m H Hm)).
    lia.
Qed.

Lemma childElements_In (cs : list Node) :
  forall k p m,
    In (p, m) (childElements elements k cs) ->
    exists j c q,
      p = (k + j)%nat :: q /\ nth_error cs j = Some c /\ In (q, m) (elements c).
Proof.
  induction cs as [|c cs IH]; intros k p m; simpl; [tauto|].
  intros H; apply in_app_or in H; destruct H as [H|H].
  - apply in_map_iff in H; destruct H as ([q m'] & E & H).
    inversion E; subst; exists 0%nat, c, q.
    rewrite Nat.add_0_r; auto.
  - destruct (IH _ _ _ H) as (j & c' & q & -> & Hn & Hin).
    exists (S j), c', q; rewrite Nat.add_succ_r; auto.
Qed.

(** The paths of [elements] lead to the elements they are listed with. *)
Lemma elements_nodeAt (n : Node) :
  forall p m, In (p, m) (elements n) ->
              nodeAt n p = Some m /\ isElement m = true.
Proof.
  induction n as [d|t a cs IH] using Node_induction; intros p m; simpl; [tauto|].
  intros [E|H].
  - inversion E; subst; auto.
  - destruct (childElements_In cs 0 p m H) as (j & c & q & -> & Hn & Hin).
    simpl; rewrite Hn.
    rewrite Forall_forall in IH.
    apply (IH c (nth_error_In _ _ Hn)), Hin.
Qed.

Lemma nodeAt_app (p q : Path) :
  forall n m, nodeAt n p = Some m -> nodeAt n (p ++ q) = nodeAt m q.
Proof.
  induction p as [|k p IH]; intros n m; simpl.
  - intros H; inversion H; reflexivity.
  - destruct n as [t a cs|d]; [|discriminate].
    destruct (nth_error cs k); [apply IH | discriminate].
Qed.

Lemma descendants_nodeAt (d : Node) (at_ : Path) (el : Node) (p : Path)
  (m : Node) :
  nodeAt d at_ = Some el -> In (p, m) (descendants at_ el) ->
  nodeAt d p = Some m /\ isElement m = true.
Proof.
  intros Hel H; unfold descendants in H.
  apply in_map_iff in H; destruct H as ([q m'] & E & H).
  inversion E; subst; simpl.
  rewrite (nodeAt_app at_ q d el Hel).
  apply elements_nodeAt.
  destruct (elements el); [destruct H | right; exact H].
Qed.

Lemma processNavigation_mounted (d : Node) (q p : Path) (existing : Node) :
  getElementById d containerId = Some (p, existing) ->
  processNavigation d q
  = (d, if (childElementCount existing =? 0)%nat
        then [RenderNavigationApp p] else []).
Proof.
  intros H; unfold processNavigation; rewrite H.
  destruct (childElementCount existing =? 0)%nat; reflexivity.
Qed.

Lemma processNavigation_creates (d : Node) (q : Path) (m : Node) :
  getElementById d containerId = None ->
  nodeAt d q = Some m -> isElement m = true ->
  countContainers (fst (processNavigation d q)) = 1%nat.
Proof.
  intros H Hq Hm; unfold processNavigation; rewrite H; simpl.
  unfold countContainers.
  rewrite (prependAt_count_eq containerId _ q d m Hq Hm).
  apply getElementById_None_count in H; rewrite H; reflexivity.
Qed.

Lemma findNav_In (d : Node) (nav : Path * Node) :
  findNav d = Some nav -> In nav (elements d).
Proof.
  unfold findNav, querySelector, querySelectorAll.
  destruct (find (fun e => navQuery (snd e)) (elements d)) eqn:E1.
  - intros H; inversion H; subst; exact (proj1 (find_some _ _ E1)).
  - destruct (find (fun e => hasTag (snd e) (js "nav")) (elements d)) eqn:E2.
    + intros H; inversion H; subst; exact (proj1 (find_some _ _ E2)).
    + intros H; apply find_some in H; destruct H as [H _].
      apply filter_In in H; exact (proj1 H).
Qed.

(** A run of [setupNavigationReplacement] does nothing, or it is
    [processNavigation] on an element of the document. *)
Lemma setupNavigationReplacement_cases (d : Node) :
  setupNavigationReplacement d = (d, [])
  \/ exists q m,
       nodeAt d q = Some m /\ isElement m = true
       /\ setupNavigationReplacement d = processNavigation d q.
Proof.
  unfold setupNavigationReplacement.
  destruct (findNav d) as [[navPath nav]|] eqn:E; [|left; reflexivity].
  apply findNav_In, elements_nodeAt in E; destruct E as [Hnav _].
  set (allOls := querySelectorAllIn navPath nav (fun n => hasTag n (js "ol"))).
  assert (Hols : forall ol, In ol allOls ->
                            nodeAt d (fst ol) = Some (snd ol)
                            /\ isElement (snd ol) = true).
  { intros [q m] H; apply filter_In in H; destruct H as [H _].
    exact (descendants_nodeAt d navPath nav q m Hnav H). }
  match goal with |- context [find ?f allOls] =>
    destruct (find f allOls) as [ol|] eqn:F end.
  - right; exists (fst ol), (snd ol).
    destruct (Hols ol (proj1 (find_some _ _ F))); auto.
  - destruct allOls as [|ol rest]; [left; reflexivity|].
    right; exists (fst ol), (snd ol).
    destruct (Hols ol (or_introl eq_refl)); auto.
Qed.

(** The interval callback does nothing to the document, or, when no
    container is in the document, it runs [setupNavigationReplacement]. *)
Lemma checkNavigation_cases (pathname : list N) (d : Node) :
  checkNavigation pathname d = (d, [])
  \/ (getElementById d containerId = None
      /\ checkNavigation pathname d = setupNavigationReplacement d).
Proof.
  unfold checkNavigation.
  destruct (includes pathname (js "/admin/content-manager")); [|left; reflexivity].
  match goal with |- context [match ?x with Some _ => _ | None => (d, [])  end] =>
    destruct x end; [|left; reflexivity].
  destruct (getElementById d containerId); [left; reflexivity | right; auto].
Qed.

Lemma checkNavigation_mounted (pathname : list N) (d : Node) (e : Path * Node) :
  getElementById d containerId = Some e -> checkNavigation pathname d = (d, []).
Proof.
  intros H; destruct (checkNavigation_cases pathname d) as [E|[E _]];
    [exact E | congruence].
Qed.

Lemma setupNavigationReplacement_mounted (d : Node) (p : Path) (existing : Node) :
  getElementById d containerId = Some (p, existing) ->
  fst (setupNavigationReplacement d) = d
  /\ (snd (setupNavigationReplacement d) = []
      \/ (snd (setupNavigationReplacement d) = [RenderNavigationApp p]
          /\ childElementCount existing = 0%nat)).
Proof.
  intros H.
  destruct (setupNavigationReplacement_cases d) as [E|(q & m & _ & _ & E)];
    rewrite E; [auto|].
  rewrite (processNavigation_mounted d q p existing H); simpl.
  destruct (Nat.eqb_spec (childElementCount existing) 0); auto.
Qed.

(** After a run of [setupNavigationReplacement] the document is as it was,
    or it holds a container. *)
Lemma setupNavigationReplacement_result (d : Node) :
  fst (setupNavigationReplacement d) = d
  \/ countContainers (fst (setupNavigationReplacement d)) = 1%nat.
Proof.
  destruct (setupNavigationReplacement_cases d) as [E|(q & m & Hq & Hm & E)];
    rewrite E; [auto|].
  destruct (getElementById d containerId) as [[p existing]|] eqn:G.
  - rewrite (processNavigation_mounted d q p existing G); auto.
  - right; exact (processNavigation_creates d q m G Hq Hm).
Qed.

Lemma setupNavigationReplacement_count (d : Node) :
  (countContainers d <= 1)%nat ->
  (countContainers (fst (setupNavigationReplacement d)) <= 1)%nat.
Proof.
  intros H; destruct (setupNavigationReplacement_result d) as [E|E];
    rewrite E; [exact H | lia].
Qed.

Lemma checkNavigation_count (pathname : list N) (d : Node) :
  (countContainers d <= 1)%nat ->
  (countContainers (fst (checkNavigation pathname d)) <= 1)%nat.
Proof.
  intros H; destruct (checkNavigation_cases pathname d) as [E|[_ E]]; rewrite E;
    [exact H | apply setupNavigationReplacement_count, H].
Qed.

Lemma step_count (d d' : Node) :
  step d d' -> (countContainers d <= 1)%nat -> (countContainers d' <= 1)%nat.
Proof.
  intros [d0|pathname d0|d0 d1 Hhost] H.
  - apply setupNavigationReplacement_count, H.
  - apply checkNavigation_count, H.
  - lia.
Qed.

Lemma setupNavigationReplacement_fixed (d : Node) :
  (0 < countContainers d)%nat -> fst (setupNavigationReplacement d) = d.
Proof.
  intros H.
  destruct (getElementById d containerId) as [[p existing]|] eqn:G.
  - exact (proj1 (setupNavigationReplacement_mounted d p existing G)).
  - apply getElementById_None_count in G; unfold countContainers in H; lia.
Qed.

(** C7.  Whatever runs of the mount operation, from either entry point, and
    whatever steps of the host that create no container are interleaved, a
    document with at most one injected container keeps at most one.  When a
    container is in the document, a run leaves the document as it is (no
    node is created) and asks for a render, into that very node, only if the
    node has no child element; the interval callback then does nothing at
    all.  And after one run, further runs leave the document unchanged. *)
Theorem mount_never_duplicates_the_container :
  (forall d d',
      steps d d' ->
      (countContainers d <= 1)%nat -> (countContainers d' <= 1)%nat)
  /\ (forall d p existing,
         getElementById d containerId = Some (p, existing) ->
         fst (setupNavigationReplacement d) = d
         /\ (forall pathname, checkNavigation pathname d = (d, []))
         /\ (snd (setupNavigationReplacement d) = []
             \/ (snd (setupNavigationReplacement d) = [RenderNavigationApp p]
                 /\ childElementCount existing = 0%nat)))
  /\ (forall d,
         let d1 := fst (setupNavigationReplacement d) in
         fst (setupNavigationReplacement d1) = d1
         /\ forall pathname, fst (checkNavigation pathname d1) = d1).
Proof.
  split; [|split].
  - intros d d' Hs; induction Hs as [d|d1 d2 d3 H12 _ IH]; [auto|].
    intros H; apply IH, (step_count d1 d2 H12 H).
  - intros d p existing H.
    destruct (setupNavigationReplacement_mounted d p existing H) as [E1 E2].
    repeat split; [exact E1 | | exact E2].
    intros pathname; exact (checkNavigation_mounted pathname d _ H).
  - intros d d1.
    assert (H1 : fst (setupNavigationReplacement d1) = d1).
    { unfold d1; destruct (setupNavigationReplacement_result d) as [E|E].
      - rewrite E; exact E.
      - apply setupNavigationReplacement_fixed; lia. }
    split; [exact H1|].
    intros pathname.
    destruct (checkNavigation_cases pathname d1) as [E|[_ E]]; rewrite E;
      [reflexivity | exact H1].
Qed.

Lemma mount_never_duplicates_the_container_witness :
  countContainers (fst (setupNavigationReplacement hostDocument)) = 1%nat
  /\ (countContainers
        (fst (setupNavigationReplacement
                (fst (checkNavigation (js "/admin/content-manager/x")
                        (fst (setupNavigationReplacement hostDocument))))))
      <= 1)%nat.
Proof.
  split; [reflexivity|].
  apply (proj1 mount_never_duplicates_the_container hostDocument).
  - eapply steps_cons; [apply step_mount|].
    eapply steps_cons; [apply step_interval|].
    eapply steps_cons; [apply step_mount|].
    apply steps_refl.
  - vm_compute; lia.
Defined.

(* ================================================================== *)
(** * The scenarios of the specification, run *)
(* ================================================================== *)

(** Scenario 1: "[2] Blog | Post" and "Blog | Category" land in the group
    "Blog", Post (order 2) before Category (sentinel). *)
Example scenario_blog :
  option_map (map (fun g => (gname g, map displayName (items g))))
    (organizeByGroups codeUnitCompare
       (formatContentTypes (js " | ")
          (Some [ listed "api::post.post" "post" "[2] Blog | Post" collectionType;
                  listed "api::category.category" "category" "Blog | Category"
                         collectionType ])))
  = Some [ (js "Blog", [js "Post"; js "Category"]) ].
Proof. reflexivity. Qed.

(** Scenario 2: "Settings" holds no delimiter and is its own group. *)
Example scenario_settings :
  map (fun d => (group d, displayName d))
      (formatContentTypes (js " | ")
         (Some [ listed "api::setting.setting" "setting" "Settings" singleType ]))
  = [ (Some (js "Settings"), js "Settings") ].
Proof. reflexivity. Qed.

(** A group name that is a property name of [Object.prototype] makes
    [organizeByGroups] throw. *)
Example inherited_group_name_throws :
  organizeByGroups codeUnitCompare
    (formatContentTypes (js " | ")
       (Some [ listed "api::c.c" "c" "constructor | Sites" collectionType ]))
  = None.
Proof. reflexivity. Qed.

(** Keys that are array indices come first in [Object.entries], in
    ascending order, whatever the order of creation. *)
Example array_index_keys_first :
  map fst (Object_entries [ (js "Blog", []); (js "10", []); (js "2", []) ])
  = [ js "2"; js "10"; js "Blog" ].
Proof. reflexivity. Qed.

(* ================================================================== *)
(** * Further properties of the normalizer *)
(* ================================================================== *)

Lemma formatContentType_uid (delimiter : list N) (def : Z) (ct : RawContentType) :
  uid (formatContentType delimiter def ct) = raw_uid ct.
Proof.
  unfold formatContentType.
  destruct (extractSortOrder (rawDisplayName ct) def); reflexivity.
Qed.

Lemma formatContentType_name (delimiter : list N) (def : Z) (ct : RawContentType) :
  name (formatContentType delimiter def ct) = apiID ct.
Proof.
  unfold formatContentType.
  destruct (extractSortOrder (rawDisplayName ct) def); reflexivity.
Qed.

Lemma formatContentType_href (delimiter : list N) (def : Z) (ct : RawContentType) :
  href (formatContentType delimiter def ct)
  = js "/admin/content-manager/"
    ++ (if Kind_eqb (schema_kind (schema ct)) singleType
        then js "single-types" else js "collection-types")
    ++ js "/" ++ raw_uid ct.
Proof.
  unfold formatContentType.
  destruct (extractSortOrder (rawDisplayName ct) def); reflexivity.
Qed.

Lemma formatContentTypes_inv (delimiter : list N)
  (data : option (list RawContentType)) (d : ContentType) :
  In d (formatContentTypes delimiter data) ->
  exists records ct,
    data = Some records /\ In ct records /\ isRetained ct = true
    /\ d = formatContentType delimiter (Z.of_nat (length records) + 1000) ct.
Proof.
  destruct data as [records|]; simpl; [|tauto].
  intros H; apply in_map_iff in H; destruct H as (ct & <- & H).
  apply filter_In in H; destruct H; exists records, ct; auto.
Qed.

(** X1.  The normalizer keeps exactly the records of the [api::] and
    [plugin::] namespaces, one descriptor for each, in the order of the
    listing and under the uid and name of the record; a missing listing
    gives no descriptor. *)
Theorem formatContentTypes_keeps_the_namespaces :
  forall delimiter data,
    map uid (formatContentTypes delimiter data)
    = map raw_uid (filter isRetained (match data with Some r => r | None => [] end))
    /\ map name (formatContentTypes delimiter data)
       = map apiID (filter isRetained (match data with Some r => r | None => [] end))
    /\ (forall d, In d (formatContentTypes delimiter data) ->
          startsWith (uid d) (js "api::") = true
          \/ startsWith (uid d) (js "plugin::") = true)
    /\ (length (formatContentTypes delimiter data)
        <= length (match data with Some r => r | None => [] end))%nat.
Proof.
  intros delimiter data; repeat split.
  - destruct data as [records|]; simpl; [|reflexivity].
    rewrite map_map; apply map_ext; intros ct; apply formatContentType_uid.
  - destruct data as [records|]; simpl; [|reflexivity].
    rewrite map_map; apply map_ext; intros ct; apply formatContentType_name.
  - intros d H.
    destruct (formatContentTypes_inv _ _ _ H) as (records & ct & _ & _ & Hr & ->).
    rewrite formatContentType_uid; apply orb_true_iff, Hr.
  - destruct data as [records|]; simpl; [|lia].
    rewrite length_map; apply filter_length_le.
Qed.

Lemma includes_app_r (a d : list N) : includes (a ++ d) d = true.
Proof.
  pose proof (includes_app a d []) as H; rewrite app_nil_r in H; exact H.
Qed.

(** X2.  The link of a descriptor leads to the collection or single-type
    route of its kind and ends in its uid, so that a location equal to the
    link of a descriptor marks that descriptor active. *)
Theorem href_marks_its_descriptor_active :
  forall delimiter data d,
    In d (formatContentTypes delimiter data) ->
    (href d = js "/admin/content-manager/single-types/" ++ uid d
     \/ href d = js "/admin/content-manager/collection-types/" ++ uid d)
    /\ (kind d = singleType <->
        href d = js "/admin/content-manager/single-types/" ++ uid d)
    /\ isDisplayed d = true
    /\ isActive (href d) d = true.
Proof.
  intros delimiter data d H.
  destruct (formatContentTypes_inv _ _ _ H) as (records & ct & _ & _ & _ & ->).
  assert (Hk : kind (formatContentType delimiter
                       (Z.of_nat (length records) + 1000) ct)
               = schema_kind (schema ct)).
  { unfold formatContentType.
    destruct (extractSortOrder (rawDisplayName ct) _); reflexivity. }
  assert (Hd : isDisplayed (formatContentType delimiter
                       (Z.of_nat (length records) + 1000) ct) = true).
  { unfold formatContentType.
    destruct (extractSortOrder (rawDisplayName ct) _); reflexivity. }
  unfold isActive.
  rewrite formatContentType_href, formatContentType_uid, Hk.
  destruct (schema_kind (schema ct)); simpl Kind_eqb; cbv iota.
  - repeat split; auto.
    + intros E; discriminate E.
    + intros E; apply (f_equal (fun l => nth 23 l 0%N)) in E; discriminate E.
    + rewrite !app_assoc; apply includes_app_r.
  - repeat split; auto.
    rewrite !app_assoc; apply includes_app_r.
Qed.

Lemma href_marks_its_descriptor_active_witness :
  Forall (fun d => isActive (href d) d = true) sampleDescriptors.
Proof.
  apply Forall_forall; intros d H.
  apply (href_marks_its_descriptor_active (js " | ") _ d H).
Defined.

Lemma dropWhile_idem (p : N -> bool) (s : list N) :
  dropWhile p (dropWhile p s) = dropWhile p s.
Proof.
  induction s as [|c s IH]; simpl; [reflexivity|].
  destruct (p c) eqn:E; [exact IH | simpl; rewrite E; reflexivity].
Qed.

Lemma dropWhile_head (p : N -> bool) (s : list N) (c : N) (t : list N) :
  dropWhile p s = c :: t -> p c = false.
Proof.
  induction s as [|x s IH]; simpl; [discriminate|].
  destruct (p x) eqn:E; [exact IH | intros H; inversion H; subst; exact E].
Qed.

Lemma dropWhile_suffix (p : N -> bool) (s : list N) :
  exists dropped, s = dropped ++ dropWhile p s.
Proof. exists (takeWhile p s); apply take_drop_While. Qed.

Lemma dropWhile_keeps_last (p : N -> bool) (s : list N) (c : N) :
  p c = false -> exists u, dropWhile p (s ++ [c]) = u ++ [c].
Proof.
  intros Hc; induction s as [|x s IH]; simpl.
  - rewrite Hc; exists []; reflexivity.
  - destruct (p x); [exact IH | exists (x :: s); reflexivity].
Qed.

Lemma dropWhile_fixed (p : N -> bool) (c : N) (t : list N) :
  p c = false -> dropWhile p (c :: t) = c :: t.
Proof. intros H; simpl; rewrite H; reflexivity. Qed.

Lemma trimEnd_idem (s : list N) : trimEnd (trimEnd s) = trimEnd s.
Proof.
  unfold trimEnd; rewrite rev_involutive, dropWhile_idem; reflexivity.
Qed.

(** A trimmed string begins with no whitespace. *)
Lemma trimStart_trim (s : list N) : trimStart (trim s) = trim s.
Proof.
  unfold trim, trimStart at 1.
  destruct (dropWhile isWhiteSpace s) as [|c t] eqn:E;
    [unfold trimStart; rewrite E; reflexivity|].
  pose proof (dropWhile_head _ _ _ _ E) as Hc.
  unfold trimStart; rewrite E; unfold trimEnd; simpl rev.
  destruct (dropWhile_keeps_last isWhiteSpace (rev t) c Hc) as [u Hu].
  rewrite Hu, rev_app_distr; simpl.
  rewrite Hc; reflexivity.
Qed.

Lemma trim_idem (s : list N) : trim (trim s) = trim s.
Proof.
  unfold trim at 1; rewrite trimStart_trim.
  unfold trim; apply trimEnd_idem.
Qed.

Lemma trim_ends (s : list N) :
  (forall c t, trim s = c :: t -> isWhiteSpace c = false)
  /\ (forall t c, trim s = t ++ [c] -> isWhiteSpace c = false).
Proof.
  split.
  - intros c t H; pose proof (trimStart_trim s) as E.
    rewrite H in E; unfold trimStart in E; simpl in E.
    destruct (isWhiteSpace c) eqn:Hc; [|reflexivity].
    destruct (dropWhile_suffix isWhiteSpace t) as [dropped Hd].
    apply (f_equal (@length _)) in E; rewrite Hd in E at 2.
    simpl in E; rewrite length_app in E; lia.
  - intros t c H; unfold trim, trimEnd in H.
    apply (f_equal (@rev _)) in H.
    rewrite rev_involutive, rev_app_distr in H; simpl in H.
    exact (dropWhile_head _ _ _ _ H).
Qed.

Lemma splitGo_nonempty (sep : list N) (s : list N) :
  forall skip cur, splitGo sep skip s cur <> [].
Proof.
  induction s as [|c s IH]; intros skip cur; simpl; [discriminate|].
  destruct skip; [|apply IH].
  destruct (match sep with [] => true | x :: p' => (x =? c)%N && startsWith s p' end);
    [discriminate | apply IH].
Qed.

(** X3.  The group of a name is undefined only when the delimiter and the
    name are both empty; a defined group never begins or ends with
    whitespace (trimming it again changes nothing). *)
Theorem group_is_trimmed :
  forall delimiter displayName,
    (getContentTypeGroup delimiter displayName = None
     <-> delimiter = [] /\ displayName = [])
    /\ (forall g, getContentTypeGroup delimiter displayName = Some g ->
          trim g = g
          /\ (forall c t, g = c :: t -> isWhiteSpace c = false)
          /\ (forall t c, g = t ++ [c] -> isWhiteSpace c = false)).
Proof.
  intros delimiter displayName; split.
  - unfold getContentTypeGroup, split; split.
    + destruct delimiter as [|d delimiter].
      * destruct displayName; [auto | discriminate].
      * pose proof (@splitGo_nonempty (d :: delimiter) displayName 0 []) as H.
        destruct (splitGo (d :: delimiter) 0 displayName []);
          [congruence | discriminate].
    + intros [-> ->]; reflexivity.
  - intros g H; unfold getContentTypeGroup in H.
    destruct (split displayName delimiter) as [|seg segs]; [discriminate|].
    simpl in H; inversion H; subst g.
    split; [apply trim_idem|].
    destruct (trim_ends seg) as [H1 H2]; split; assumption.
Qed.

Lemma group_is_trimmed_witness :
  getContentTypeGroup (js " | ") (js "  Blog  | Post") = Some (js "Blog")
  /\ trim (js "Blog") = js "Blog".
Proof.
  split; [reflexivity|].
  exact (proj1 (proj2 (group_is_trimmed (js " | ") (js "  Blog  | Post"))
                  (js "Blog") eq_refl)).
Defined.

Lemma startsWith_skipn (s p : list N) :
  startsWith s p = true -> s = p ++ skipn (length p) s.
Proof.
  intros H; destruct (startsWith_inv _ _ H) as [r ->].
  rewrite skipn_app, skipn_all, Nat.sub_diag; reflexivity.
Qed.

(** X4.  The display name of a descriptor can be put back together: it is
    the working display name itself, or the working display name is the
    group, the delimiter and the display name in a row.  And the working
    display name is the raw one, or the raw one behind an ordering hint. *)
Theorem display_name_round_trip :
  forall delimiter def ct,
    let d := formatContentType delimiter def ct in
    let working := snd (extractSortOrder (rawDisplayName ct) def) in
    (displayName d = working
     \/ working = toString (group d) ++ delimiter ++ displayName d)
    /\ (working = rawDisplayName ct
        \/ exists ds spaces,
             Forall (fun c => isDigit c = true) ds
             /\ Forall (fun c => isWhiteSpace c = true) spaces
             /\ rawDisplayName ct = 91%N :: ds ++ 93%N :: spaces ++ working).
Proof.
  intros delimiter def ct d working; split.
  - unfold d; rewrite formatContentType_displayName, formatContentType_group.
    fold working.
    destruct (startsWith working
                (toString (getContentTypeGroup delimiter working) ++ delimiter))
      eqn:E; [right | left; reflexivity].
    apply startsWith_skipn in E; unfold slice.
    rewrite <- app_assoc in E; exact E.
  - unfold working, extractSortOrder.
    destruct (matchSortPrefix (rawDisplayName ct)) as [[ds rest]|] eqn:E;
      [right | left; reflexivity].
    destruct (matchSortPrefix_Some _ _ _ E) as (tail & _ & Hds & Hs & ->).
    exists ds, (takeWhile isWhiteSpace tail); simpl.
    repeat split; [exact Hds | apply takeWhile_all|].
    rewrite Hs at 1; unfold trimStart.
    rewrite <- take_drop_While; reflexivity.
Qed.

Lemma startsWith_within (l t p : list N) :
  startsWith (l ++ t) p = true -> (length p <= length l)%nat ->
  startsWith l p = true.
Proof.
  revert l; induction p as [|x p IH]; intros l H Hlen.
  - destruct l; reflexivity.
  - destruct l as [|y l]; [simpl in Hlen; lia|].
    simpl in *; apply andb_true_iff in H; destruct H as [E H].
    rewrite E; apply IH; [exact H | lia].
Qed.

Lemma includes_false_app_nil (sep : list N) :
  includes (removelast sep) sep = false -> sep <> [].
Proof. intros H ->; discriminate H. Qed.

(** The first segment of a split is what stands before the first occurrence
    of the separator. *)
Lemma splitGo_first (sep g rest : list N) :
  forall cur,
    includes (g ++ removelast sep) sep = false ->
    hd_error (splitGo sep 0 (g ++ sep ++ rest) cur) = Some (rev cur ++ g).
Proof.
  induction g as [|x g IH]; intros cur H.
  - pose proof (includes_false_app_nil sep H) as Hne.
    destruct sep as [|c sep]; [congruence|].
    change (([] ++ (c :: sep) ++ rest)) with (c :: (sep ++ rest)).
    cbn [splitGo].
    change (c :: sep ++ rest) with ((c :: sep) ++ rest).
    rewrite startsWith_app, app_nil_r; reflexivity.
  - change ((x :: g) ++ removelast sep) with (x :: (g ++ removelast sep)) in H.
    apply includes_false_cons in H; destruct H as [H1 H2].
    change ((x :: g) ++ sep ++ rest) with (x :: (g ++ sep ++ rest)).
    cbn [splitGo].
    destruct (startsWith (x :: g ++ sep ++ rest) sep) eqn:E.
    + exfalso.
      assert (Hne : sep <> []) by (intros ->; destruct g; discriminate H1).
      rewrite (app_removelast_last 0%N Hne) in E at 1.
      rewrite <- app_assoc, (app_assoc g), app_comm_cons in E.
      rewrite (startsWith_within _ _ _ E) in H1; [discriminate|].
      rewrite (app_removelast_last 0%N Hne) at 1.
      simpl; rewrite !length_app; simpl; lia.
    + rewrite (IH (x :: cur) H2); simpl; rewrite <- app_assoc; reflexivity.
Qed.

Lemma hd_error_map {A B : Type} (f : A -> B) (l : list A) :
  hd_error (map f l) = option_map f (hd_error l).
Proof. destruct l; reflexivity. Qed.

(** X5.  The naming convention "Group<delimiter>Item": when the working
    display name is a group name without surrounding whitespace, the first
    occurrence of the delimiter and the rest, the descriptor gets that group
    and the rest as its display name. *)
Theorem delimited_name_splits_into_group_and_item :
  forall delimiter def ct g rest,
    let d := formatContentType delimiter def ct in
    snd (extractSortOrder (rawDisplayName ct) def) = g ++ delimiter ++ rest ->
    firstOccurrenceAfter g delimiter ->
    trim g = g ->
    group d = Some g /\ displayName d = rest.
Proof.
  intros delimiter def ct g rest d Hw Hfirst Htrim.
  assert (Hne : delimiter <> []).
  { intros ->; unfold firstOccurrenceAfter in Hfirst.
    rewrite includes_nil in Hfirst; discriminate. }
  assert (Hg : getContentTypeGroup delimiter (g ++ delimiter ++ rest) = Some g).
  { unfold getContentTypeGroup, split.
    destruct delimiter as [|c delimiter]; [congruence|].
    rewrite hd_error_map, (splitGo_first _ _ _ [] Hfirst); simpl.
    rewrite Htrim; reflexivity. }
  split.
  - unfold d; rewrite formatContentType_group, Hw; exact Hg.
  - unfold d; rewrite formatContentType_displayName, Hw, Hg; simpl toString.
    rewrite app_assoc, startsWith_app; unfold slice.
    rewrite skipn_app, skipn_all, Nat.sub_diag; reflexivity.
Qed.

Lemma delimited_name_splits_into_group_and_item_witness :
  group (formatContentType (js " | ") 1001
           (listed "api::tag.tag" "tag" "[3] Blog | Tag | Extra" collectionType))
  = Some (js "Blog")
  /\ displayName (formatContentType (js " | ") 1001
           (listed "api::tag.tag" "tag" "[3] Blog | Tag | Extra" collectionType))
     = js "Tag | Extra".
Proof.
  apply (delimited_name_splits_into_group_and_item (js " | ") 1001
           (listed "api::tag.tag" "tag" "[3] Blog | Tag | Extra" collectionType)
           (js "Blog") (js "Tag | Extra")); reflexivity.
Defined.

Lemma isDigit_value (c : N) : isDigit c = true -> (0 <= digitValue c <= 9)%Z.
Proof.
  unfold isDigit, digitValue; intros H.
  apply andb_true_iff in H; destruct H as [H1 H2].
  apply N.leb_le in H1, H2; lia.
Qed.

Lemma decimalValue_nonneg (ds : list N) :
  Forall (fun c => isDigit c = true) ds -> (0 <= decimalValue ds)%Z.
Proof.
  unfold decimalValue; intros H.
  assert (G : forall acc, (0 <= acc)%Z ->
              (0 <= fold_left (fun a d => (10 * a + digitValue d)%Z) ds acc)%Z).
  { induction H as [|c ds Hc _ IH]; intros acc Hacc; cbn [fold_left];
      [exact Hacc|].
    apply IH; pose proof (isDigit_value c Hc); lia. }
  apply G; lia.
Qed.

(** X6.  No sort order is negative: an explicit hint is the value of a run
    of digits and the sentinel is at least 1000, so the hint [0] is the
    least order there is.  [extractSortOrder] alone keeps a default that is
    not negative. *)
Theorem sort_orders_are_not_negative :
  forall delimiter data d,
    In d (formatContentTypes delimiter data) ->
    (0 <= sortOrder d)%Z
    /\ (forall s def, (0 <= def)%Z -> (0 <= fst (extractSortOrder s def))%Z).
Proof.
  assert (G : forall s def, (0 <= def)%Z ->
                            (0 <= fst (extractSortOrder s def))%Z).
  { intros s def Hdef; unfold extractSortOrder.
    destruct (matchSortPrefix s) as [[ds rest]|] eqn:E; simpl; [|exact Hdef].
    destruct (matchSortPrefix_Some _ _ _ E) as (tail & _ & Hds & _).
    apply decimalValue_nonneg, Hds. }
  intros delimiter data d H; split; [|exact G].
  destruct (formatContentTypes_inv _ _ _ H) as (records & ct & _ & _ & _ & ->).
  rewrite formatContentType_sortOrder; apply G; lia.
Qed.

Lemma sort_orders_are_not_negative_witness :
  Forall (fun d => (0 <= sortOrder d)%Z) sampleDescriptors.
Proof.
  apply Forall_forall; intros d H.
  apply (sort_orders_are_not_negative (js " | ") _ d H).
Defined.

(** X7.  Cleaning a header text changes it exactly when it begins with an
    ordering hint, and then shortens it by three code units or more: the
    observer that cleans on every change of the header cannot feed itself
    for ever.  What is left is the end of the text, and it is the display
    name the normalizer works with. *)
Theorem cleanHeaderText_shortens :
  forall text,
    (cleanHeaderText text = text <-> ~ hasHintPrefix text)
    /\ (hasHintPrefix text ->
        (length (cleanHeaderText text) + 3 <= length text)%nat)
    /\ (exists dropped, text = dropped ++ cleanHeaderText text)
    /\ (forall def, cleanHeaderText text = snd (extractSortOrder text def)).
Proof.
  intros text.
  assert (Hlen : hasHintPrefix text ->
                 (length (cleanHeaderText text) + 3 <= length text)%nat).
  { intros (ds & tail & Hne & Hds & ->); unfold cleanHeaderText.
    rewrite matchSortPrefix_hint by assumption.
    destruct (dropWhile_suffix isWhiteSpace tail) as [dropped Hd].
    unfold trimStart; simpl; rewrite length_app; simpl.
    rewrite Hd at 2; rewrite length_app.
    destruct ds; [congruence | simpl; lia]. }
  repeat split.
  - intros E Hh; specialize (Hlen Hh); rewrite E in Hlen; lia.
  - intros Hn; apply matchSortPrefix_None in Hn.
    unfold cleanHeaderText; rewrite Hn; reflexivity.
  - exact Hlen.
  - unfold cleanHeaderText.
    destruct (matchSortPrefix text) as [[ds rest]|] eqn:E;
      [|exists []; reflexivity].
    destruct (matchSortPrefix_Some _ _ _ E) as (tail & _ & _ & -> & ->).
    destruct (dropWhile_suffix isWhiteSpace tail) as [dropped Hd].
    exists (91%N :: ds ++ 93%N :: dropped).
    simpl; rewrite <- app_assoc; simpl; unfold trimStart; rewrite <- Hd.
    reflexivity.
  - intros def; unfold cleanHeaderText, extractSortOrder.
    destruct (matchSortPrefix text) as [[ds rest]|]; reflexivity.
Qed.

(* ================================================================== *)
(** * Further properties of the grouping engine *)
(* ================================================================== *)

Lemma pushTo_concat (m : GroupMap) (k : list N) (ct : ContentType)
  (a : list ContentType) :
  ownProperty m k = Some a ->
  Permutation (concat (map snd (pushTo m k ct))) (ct :: concat (map snd m)).
Proof.
  induction m as [|[k' a'] m IH]; simpl; [discriminate|].
  destruct (str_eqb k' k); simpl.
  - intros _; rewrite <- app_assoc; simpl.
    apply Permutation_sym, Permutation_middle.
  - intros H; eapply perm_trans; [apply Permutation_app_head, IH, H|].
    apply Permutation_sym, Permutation_middle.
Qed.

Lemma addToGroup_concat (m m' : GroupMap) (ct : ContentType) :
  addToGroup m ct = Some m' ->
  Permutation (concat (map snd m')) (ct :: concat (map snd m)).
Proof.
  intros H.
  destruct (addToGroup_Some _ _ _ H) as [(a & Ha & ->)|(_ & _ & ->)].
  - exact (pushTo_concat _ _ _ _ Ha).
  - rewrite map_app, concat_app; simpl.
    apply Permutation_sym, Permutation_cons_append.
Qed.

Lemma forEachAdd_concat (cts : list ContentType) :
  forall m m', forEachAdd m cts = Some m' ->
               Permutation (concat (map snd m')) (cts ++ concat (map snd m)).
Proof.
  induction cts as [|ct cts IH]; simpl; intros m m' H.
  - inversion H; apply Permutation_refl.
  - destruct (addToGroup m ct) as [m1|] eqn:E; [|discriminate].
    eapply perm_trans; [apply (IH _ _ H)|].
    eapply perm_trans;
      [apply Permutation_app_head, (addToGroup_concat _ _ _ E)|].
    apply Permutation_sym, Permutation_middle.
Qed.

Lemma pushTo_filedByKey (m : GroupMap) (ct : ContentType) :
  filedByKey m -> filedByKey (pushTo m (groupKey ct) ct).
Proof.
  induction 1 as [|[k' a'] m Hx Hm IH]; simpl; [constructor|].
  destruct (str_eqb k' (groupKey ct)) eqn:E; constructor; auto.
  apply str_eqb_eq in E; simpl in *.
  apply Forall_app; split; [exact Hx | constructor; auto].
Qed.

Lemma addToGroup_filedByKey (m m' : GroupMap) (ct : ContentType) :
  filedByKey m -> addToGroup m ct = Some m' -> filedByKey m'.
Proof.
  intros Hm H.
  destruct (addToGroup_Some _ _ _ H) as [(a & _ & ->)|(_ & _ & ->)].
  - apply pushTo_filedByKey, Hm.
  - apply Forall_app; split; [exact Hm|].
    repeat constructor.
Qed.

Lemma forEachAdd_filedByKey (cts : list ContentType) :
  forall m m', filedByKey m -> forEachAdd m cts = Some m' -> filedByKey m'.
Proof.
  induction cts as [|ct cts IH]; simpl; intros m m' Hm H.
  - inversion H; subst; exact Hm.
  - destruct (addToGroup m ct) as [m1|] eqn:E; [|discriminate].
    exact (IH _ _ (addToGroup_filedByKey _ _ _ Hm E) H).
Qed.

Lemma sortItems_concat (lc : list N -> list N -> Z) (m : GroupMap) :
  Permutation (concat (map snd (sortItems lc m))) (concat (map snd m)).
Proof.
  induction m as [|[k a] m IH]; simpl; [constructor|].
  apply Permutation_app; [apply Array_sort_perm | exact IH].
Qed.

Lemma concat_map_perm {A B : Type} (f : A -> list B) (l l' : list A) :
  Permutation l l' -> Permutation (concat (map f l)) (concat (map f l')).
Proof.
  intros H; rewrite <- !flat_map_concat_map; apply Permutation_flat_map, H.
Qed.

Lemma organizeByGroups_concat (lc : list N -> list N -> Z)
  (cts : list ContentType) (gs : list ContentTypeGroup) :
  organizeByGroups lc cts = Some gs ->
  Permutation (concat (map items gs)) cts.
Proof.
  unfold organizeByGroups; intros H.
  destruct (forEachAdd [] cts) as [m|] eqn:E; [|discriminate].
  inversion H; subst gs; clear H.
  eapply perm_trans; [apply concat_map_perm, Array_sort_perm|].
  rewrite map_map; simpl.
  change (fun x : list N * list ContentType => snd x)
    with (@snd (list N) (list ContentType)).
  eapply perm_trans; [apply concat_map_perm, Object_entries_perm|].
  eapply perm_trans; [apply sortItems_concat|].
  pose proof (forEachAdd_concat _ _ _ E) as Hc.
  simpl in Hc; rewrite app_nil_r in Hc; exact Hc.
Qed.

Lemma organizeByGroups_item_In (lc : list N -> list N -> Z)
  (cts : list ContentType) (gs : list ContentTypeGroup) (i : ContentType) :
  organizeByGroups lc cts = Some gs ->
  (In i cts <-> exists g, In g gs /\ In i (items g)).
Proof.
  intros H; pose proof (organizeByGroups_concat _ _ _ H) as Hp; split.
  - intros Hi; apply (Permutation_in _ (Permutation_sym Hp)) in Hi.
    apply in_concat in Hi; destruct Hi as (l & Hl & Hi).
    apply in_map_iff in Hl; destruct Hl as (g & <- & Hg); eauto.
  - intros (g & Hg & Hi); apply (Permutation_in _ Hp).
    apply in_concat; exists (items g); split; [apply in_map, Hg | exact Hi].
Qed.

Lemma organizeByGroups_nil_iff (lc : list N -> list N -> Z)
  (cts : list ContentType) (gs : list ContentTypeGroup) :
  organizeByGroups lc cts = Some gs -> (gs = [] <-> cts = []).
Proof.
  intros H; split.
  - intros ->; pose proof (organizeByGroups_concat _ _ _ H) as Hp.
    simpl in Hp; apply Permutation_nil, Hp.
  - intros ->; inversion H; reflexivity.
Qed.

(** X8.  The groups partition the descriptors: every descriptor handed to
    the engine is in exactly one group (the items of all groups together
    are the input, item for item), each under the key the engine files it
    by, and no two groups bear the same name. *)
Theorem organizeByGroups_partitions :
  forall lc cts gs,
    organizeByGroups lc cts = Some gs ->
    Permutation (concat (map items gs)) cts
    /\ NoDup (map gname gs)
    /\ (forall g i, In g gs -> In i (items g) -> gname g = groupKey i)
    /\ (forall i, In i cts -> exists g, In g gs /\ In i (items g)).
Proof.
  intros lc cts gs H.
  split; [exact (organizeByGroups_concat _ _ _ H)|].
  split; [exact (organizeByGroups_names _ _ _ H)|split].
  - intros g i Hg Hi.
    destruct (organizeByGroups_In _ _ _ _ H Hg) as (m & k & a & Hm & Hin & ->).
    simpl in *; apply Array_sort_In in Hi.
    assert (Hf : filedByKey m)
      by (apply (forEachAdd_filedByKey cts [] m); [constructor | exact Hm]).
    unfold filedByKey in Hf; rewrite Forall_forall in Hf.
    specialize (Hf _ Hin); rewrite Forall_forall in Hf.
    symmetry; exact (Hf i Hi).
  - intros i; apply (organizeByGroups_item_In _ _ _ _ H).
Qed.

Lemma organizeByGroups_partitions_witness :
  exists gs,
    organizeByGroups codeUnitCompare sampleDescriptors = Some gs
    /\ Permutation (concat (map items gs)) sampleDescriptors.
Proof.
  destruct (organizeByGroups codeUnitCompare sampleDescriptors)
    as [gs|] eqn:E; [|discriminate E].
  exists gs; split; [reflexivity|].
  exact (proj1 (organizeByGroups_partitions codeUnitCompare sampleDescriptors
                  gs E)).
Defined.

Lemma keysOwnOnly_ownProperty (m : GroupMap) (k : list N) :
  keysOwnOnly m -> isInherited k = true -> ownProperty m k = None.
Proof.
  induction 1 as [|[k' a'] m Hx Hm IH]; simpl; intros Hk; [reflexivity|].
  destruct (str_eqb k' k) eqn:E; [|exact (IH Hk)].
  apply str_eqb_eq in E; subst k'; simpl in Hx; congruence.
Qed.

Lemma addToGroup_keysOwnOnly (m m' : GroupMap) (ct : ContentType) :
  keysOwnOnly m -> addToGroup m ct = Some m' -> keysOwnOnly m'.
Proof.
  intros Hm H; unfold keysOwnOnly in *.
  destruct (addToGroup_Some _ _ _ H) as [(a & _ & ->)|(_ & Hi & ->)].
  - rewrite Forall_forall in *; intros e He.
    assert (Hk : In (fst e) (map fst (pushTo m (groupKey ct) ct)))
      by (apply in_map, He).
    rewrite pushTo_keys in Hk; apply in_map_iff in Hk.
    destruct Hk as (e0 & <- & He0); exact (Hm e0 He0).
  - apply Forall_app; split; [exact Hm | repeat constructor; exact Hi].
Qed.

Lemma addToGroup_throws (m : GroupMap) (ct : ContentType) :
  keysOwnOnly m ->
  (addToGroup m ct = None <-> isInherited (groupKey ct) = true).
Proof.
  intros Hm; split.
  - intros H; destruct (isInherited (groupKey ct)) eqn:E; [reflexivity|].
    destruct (addToGroup_returns m ct E) as [m' Hm']; congruence.
  - intros Hi; pose proof (keysOwnOnly_ownProperty m _ Hm Hi) as Ho.
    unfold addToGroup, getProperty; fold General; fold (groupKey ct).
    rewrite Ho, Hi; simpl; try rewrite Ho; try rewrite Hi; reflexivity.
Qed.

Lemma forEachAdd_throws (cts : list ContentType) :
  forall m, keysOwnOnly m ->
    (forEachAdd m cts = None
     <-> exists ct, In ct cts /\ isInherited (groupKey ct) = true).
Proof.
  induction cts as [|ct cts IH]; intros m Hm; simpl.
  - split; [discriminate | intros (ct & [] & _)].
  - destruct (addToGroup m ct) as [m1|] eqn:E.
    + rewrite (IH m1 (addToGroup_keysOwnOnly _ _ _ Hm E)).
      split.
      * intros (c & Hc & Hi); exists c; split; [right; exact Hc | exact Hi].
      * intros (c & [<-|Hc] & Hi); [|exists c; auto].
        apply (addToGroup_throws m ct Hm) in Hi; congruence.
    + split; [intros _|reflexivity].
      exists ct; split; [auto | apply (addToGroup_throws m ct Hm), E].
Qed.

(** X9.  [organizeByGroups] throws exactly when one of the descriptors is
    filed under a property name of [Object.prototype] (a group named
    "constructor" or "toString", say); on every other input it returns its
    groups. *)
Theorem organizeByGroups_throws_iff :
  forall lc cts,
    (organizeByGroups lc cts = None
     <-> exists ct, In ct cts /\ isInherited (groupKey ct) = true)
    /\ (forall ct,
          isInherited (groupKey ct) = true ->
          exists g, group ct = Some g /\ In g objectPrototypeKeys).
Proof.
  intros lc cts; split.
  - rewrite <- (forEachAdd_throws cts [] (Forall_nil _)).
    unfold organizeByGroups.
    destruct (forEachAdd [] cts); split; congruence.
  - intros ct Hi.
    unfold groupKey, orElse in Hi.
    destruct (group ct) as [[|c g]|]; try discriminate Hi.
    exists (c :: g); split; [reflexivity|].
    unfold isInherited in Hi; apply existsb_exists in Hi.
    destruct Hi as (k & Hk & E); apply str_eqb_eq in E; subst k; exact Hk.
Qed.

(** X10.  [NavigationApp] renders nothing at all exactly when the engine
    was handed no descriptor; with descriptors it renders an empty fragment
    while the host's search is in use, and otherwise the navigation of the
    selected template over all the groups. *)
Theorem navigation_renders_unless_no_descriptor :
  forall lc cts gs isSearching template,
    organizeByGroups lc cts = Some gs ->
    (NavigationApp_render gs isSearching template = RenderedNull <-> cts = [])
    /\ (cts <> [] ->
        NavigationApp_render gs isSearching template
        = if isSearching then RenderedFragment
          else RenderedNavigation (selectTemplate template) gs).
Proof.
  intros lc cts gs isSearching template H.
  pose proof (organizeByGroups_nil_iff _ _ _ H) as Hnil.
  unfold NavigationApp_render; split.
  - destruct gs as [|g gs]; simpl.
    + split; [intros _; apply Hnil; reflexivity | reflexivity].
    + split; [destruct isSearching; discriminate|].
      intros E; apply Hnil in E; discriminate E.
  - intros Hne; destruct gs as [|g gs]; simpl.
    + exfalso; apply Hne, Hnil; reflexivity.
    + destruct isSearching; reflexivity.
Qed.

Lemma navigation_renders_unless_no_descriptor_witness :
  exists gs,
    organizeByGroups codeUnitCompare sampleDescriptors = Some gs
    /\ NavigationApp_render gs false (JString (js "v5"))
       = RenderedNavigation v5 gs.
Proof.
  destruct (organizeByGroups codeUnitCompare sampleDescriptors)
    as [gs|] eqn:E; [|discriminate E].
  exists gs; split; [reflexivity|].
  apply (proj2 (navigation_renders_unless_no_descriptor codeUnitCompare
                  sampleDescriptors gs false (JString (js "v5")) E)).
  discriminate.
Defined.

(* ================================================================== *)
(** * Further properties of the permission gate *)
(* ================================================================== *)

Lemma optEquals_Some (v : option (list N)) (s : list N) :
  optEquals v s = true <-> v = Some s.
Proof.
  destruct v as [x|]; simpl; [|split; discriminate].
  rewrite str_eqb_eq; split; [intros ->; reflexivity | intros H; inversion H; auto].
Qed.

Lemma hasContentManagerRead_iff (permissions : list Permission)
  (ct : ContentType) :
  hasContentManagerRead permissions ct = true
  <-> exists p, In p permissions /\ action p = Some explorerRead
                /\ subject p = Some (uid ct).
Proof.
  unfold hasContentManagerRead; rewrite existsb_exists.
  split; intros (p & Hin & H); exists p; split; auto.
  - apply andb_true_iff in H; rewrite !optEquals_Some in H; exact H.
  - apply andb_true_iff; rewrite !optEquals_Some; exact H.
Qed.

Lemma hasPluginRead_iff (permissions : list Permission) (ct : ContentType) :
  hasPluginRead permissions ct = true
  <-> startsWith (uid ct) (js "plugin::") = true
      /\ exists p a, In p permissions /\ subject p = Some (uid ct)
                     /\ action p = Some a
                     /\ (includes a (js "read") = true
                         \/ includes a (js "find") = true).
Proof.
  unfold hasPluginRead; rewrite andb_true_iff, existsb_exists.
  split; intros [Hs (p & H)]; split; auto.
  - destruct H as [Hin H]; apply andb_true_iff in H; destruct H as [Hsub H].
    apply optEquals_Some in Hsub.
    destruct (action p) as [a|] eqn:Ea; [|discriminate H].
    exists p, a; repeat split; auto.
    simpl in H; apply orb_true_iff in H; destruct H as [H|H].
    + apply orb_true_iff in H; exact H.
    + apply str_eqb_eq in H; subst a; left; reflexivity.
  - destruct H as (a & Hin & Hsub & Ha & H).
    exists p; split; [exact Hin|].
    apply andb_true_iff; split; [apply optEquals_Some, Hsub|].
    rewrite Ha; simpl; destruct H as [-> | ->];
      [reflexivity | rewrite orb_true_r; reflexivity].
Qed.

(** X11.  With a permission set that is not empty, the groups
    [fetchContentTypes] builds hold no descriptor the set does not permit:
    every item of every group is a descriptor of the listing for which a
    permission names its uid as subject, with the content-manager read
    action or, for a [plugin::] descriptor, an action that mentions "read"
    or "find". *)
Theorem groups_hold_only_permitted_descriptors :
  forall lc delimiter data permissions gs g i,
    permissions <> [] ->
    fetchContentTypes_groups lc delimiter data permissions = Some gs ->
    In g gs -> In i (items g) ->
    In i (formatContentTypes delimiter data)
    /\ exists p a,
         In p permissions /\ subject p = Some (uid i) /\ action p = Some a
         /\ (a = explorerRead
             \/ (startsWith (uid i) (js "plugin::") = true
                 /\ (includes a (js "read") = true
                     \/ includes a (js "find") = true))).
Proof.
  intros lc delimiter data permissions gs g i Hne H Hg Hi.
  unfold fetchContentTypes_groups in H.
  assert (Hin : In i (allowedContentTypes permissions
                        (formatContentTypes delimiter data)))
    by (apply (organizeByGroups_item_In _ _ _ i H); eauto).
  unfold allowedContentTypes in Hin.
  destruct permissions as [|p0 permissions]; [congruence|].
  cbn [length Nat.ltb Nat.leb] in Hin.
  apply filter_In in Hin; destruct Hin as [Hin Hp]; split; [exact Hin|].
  apply orb_true_iff in Hp; destruct Hp as [Hp|Hp].
  - apply hasContentManagerRead_iff in Hp; destruct Hp as (p & ? & ? & ?).
    exists p, explorerRead; auto.
  - apply hasPluginRead_iff in Hp; destruct Hp as (Hs & p & a & ? & ? & ? & ?).
    exists p, a; auto 6.
Qed.

Lemma groups_hold_only_permitted_descriptors_witness :
  exists gs g i,
    fetchContentTypes_groups codeUnitCompare (js " | ")
      (Some [ listed "api::post.post" "post" "Blog | Post" collectionType;
              listed "api::tag.tag" "tag" "Blog | Tag" collectionType ])
      [ {| action := Some explorerRead; subject := Some (js "api::tag.tag") |} ]
    = Some gs
    /\ In g gs /\ items g = [i] /\ name i = js "tag"
    /\ exists p a,
         In p [ {| action := Some explorerRead;
                   subject := Some (js "api::tag.tag") |} ]
         /\ subject p = Some (uid i) /\ action p = Some a.
Proof.
  destruct (fetchContentTypes_groups codeUnitCompare (js " | ")
      (Some [ listed "api::post.post" "post" "Blog | Post" collectionType;
              listed "api::tag.tag" "tag" "Blog | Tag" collectionType ])
      [ {| action := Some explorerRead; subject := Some (js "api::tag.tag") |} ])
    as [gs|] eqn:E; [|discriminate E].
  destruct gs as [|g gs']; [discriminate E|].
  destruct (items g) as [|i rest] eqn:Ei;
    [vm_compute in E; inversion E; subst g; discriminate Ei|].
  assert (Hne : [ {| action := Some explorerRead;
                     subject := Some (js "api::tag.tag") |} ] <> [])
    by discriminate.
  assert (Hi : In i (items g)) by (rewrite Ei; left; reflexivity).
  destruct (groups_hold_only_permitted_descriptors codeUnitCompare (js " | ")
              _ _ (g :: gs') g i Hne E (or_introl eq_refl) Hi)
    as (_ & p & a & Hp & Hs & Ha & _).
  exists (g :: gs'), g, i.
  vm_compute in E; inversion E; subst g gs'; inversion Ei; subst i rest.
  repeat split; [left; reflexivity|].
  exists p, a; auto.
Defined.

(** X12.  For a descriptor of the [plugin::] namespace the two tests of the
    permission filter come to one: it is kept exactly when a permission
    names its uid as subject with an action that mentions "read" or "find"
    (the content-manager read action is such an action).  For any other
    descriptor only the content-manager read action counts. *)
Theorem plugin_descriptors_pass_on_any_read_action :
  forall permissions cts ct,
    permissions <> [] ->
    (startsWith (uid ct) (js "plugin::") = true ->
     (In ct (allowedContentTypes permissions cts)
      <-> In ct cts
          /\ exists p a, In p permissions /\ subject p = Some (uid ct)
                         /\ action p = Some a
                         /\ (includes a (js "read") = true
                             \/ includes a (js "find") = true)))
    /\ (startsWith (uid ct) (js "plugin::") = false ->
        (In ct (allowedContentTypes permissions cts)
         <-> In ct cts
             /\ exists p, In p permissions /\ action p = Some explorerRead
                          /\ subject p = Some (uid ct))).
Proof.
  intros permissions cts ct Hne.
  unfold allowedContentTypes.
  destruct permissions as [|p0 permissions]; [congruence|].
  cbn [length Nat.ltb Nat.leb].
  set (ps := p0 :: permissions).
  split; intros Hs; rewrite filter_In, orb_true_iff,
                      hasContentManagerRead_iff, hasPluginRead_iff.
  - split; intros [Hin H]; (split; [exact Hin|]).
    + destruct H as [(p & Hp & Ha & Hsub)|[_ H]]; [|exact H].
      exists p, explorerRead; repeat split; auto.
    + right; auto.
  - split; intros [Hin H]; (split; [exact Hin|]).
    + destruct H as [H|[Hs' _]]; [exact H | congruence].
    + left; exact H.
Qed.

Lemma plugin_descriptors_pass_on_any_read_action_witness :
  In (formatContentType (js " | ") 1001
        (listed "plugin::users-permissions.user" "user" "User" collectionType))
     (allowedContentTypes
        [ {| action := Some (js "plugin::users-permissions.user.find");
             subject := Some (js "plugin::users-permissions.user") |} ]
        (formatContentTypes (js " | ")
           (Some [ listed "plugin::users-permissions.user" "user" "User"
                          collectionType ]))).
Proof.
  apply (proj1 (plugin_descriptors_pass_on_any_read_action
                  [ {| action := Some (js "plugin::users-permissions.user.find");
                       subject := Some (js "plugin::users-permissions.user") |} ]
                  (formatContentTypes (js " | ")
                     (Some [ listed "plugin::users-permissions.user" "user"
                                    "User" collectionType ]))
                  (formatContentType (js " | ") 1001
                     (listed "plugin::users-permissions.user" "user" "User"
                             collectionType))
                  ltac:(discriminate)) eq_refl).
  split; [left; reflexivity|].
  eexists; eexists; split; [left; reflexivity|].
  repeat split; right; reflexivity.
Defined.

(* ================================================================== *)
(** * Properties of the renderers *)
(* ================================================================== *)

Lemma allTypes_perm (g : ContentTypeGroup) :
  Permutation (allTypes g) (items g).
Proof.
  unfold allTypes, collectionTypes, singleTypes.
  eapply perm_trans; [|apply (filter_partition_perm
                                (fun i => Kind_eqb (kind i) collectionType))].
  apply Permutation_app_head.
  rewrite (filter_ext (fun i => Kind_eqb (kind i) singleType)
             (fun i => negb (Kind_eqb (kind i) collectionType)));
    [apply Permutation_refl|].
  intros i; destruct (kind i); reflexivity.
Qed.

Lemma existsb_perm {A : Type} (f : A -> bool) (l l' : list A) :
  Permutation l l' -> existsb f l = existsb f l'.
Proof.
  intros H; destruct (existsb f l) eqn:E; symmetry.
  - apply existsb_exists in E; destruct E as (x & Hx & Hf).
    apply existsb_exists; exists x; split; [|exact Hf].
    exact (Permutation_in _ H Hx).
  - destruct (existsb f l') eqn:E'; [|reflexivity].
    apply existsb_exists in E'; destruct E' as (x & Hx & Hf).
    assert (existsb f l = true); [|congruence].
    apply existsb_exists; exists x; split; [|exact Hf].
    exact (Permutation_in _ (Permutation_sym H) Hx).
Qed.

(** X13.  The v5 template renders a group of the engine as one flat link
    exactly when the group holds a single item; a group of two items or
    more is a collapsible list of all its items, which the mount effect
    expands exactly when the location mentions the uid of one of them; no
    group of the engine is skipped. *)
Theorem v5_renders_single_item_groups_flat :
  forall lc cts gs g pathname,
    organizeByGroups lc cts = Some gs -> In g gs ->
    V5ContentTypeGroupSection pathname g <> V5Nothing
    /\ (forall i, V5ContentTypeGroupSection pathname g = V5Flat i
                  <-> items g = [i])
    /\ ((2 <= length (items g))%nat ->
        V5ContentTypeGroupSection pathname g
        = V5Collapsible (gname g) (existsb (isActive pathname) (items g))
            (allTypes g)
        /\ Permutation (allTypes g) (items g)).
Proof.
  intros lc cts gs g pathname H Hg.
  destruct (organizeByGroups_items _ _ _ _ H Hg) as (Hne & _).
  pose proof (allTypes_perm g) as Hp.
  pose proof (Permutation_length Hp) as Hlen.
  pose proof (existsb_perm (isActive pathname) _ _ Hp) as Hex.
  unfold V5ContentTypeGroupSection.
  destruct (items g) as [|i0 rest] eqn:Ei; [congruence|]; simpl Nat.eqb.
  cbv iota.
  destruct (allTypes g) as [|a [|b l]] eqn:Ea; simpl in Hlen.
  - discriminate Hlen.
  - destruct rest; [|discriminate Hlen].
    apply Permutation_length_1_inv in Hp; inversion Hp; subst a.
    split; [discriminate|split].
    + intros i; split; intros E; inversion E; reflexivity.
    + simpl; intros H0; lia.
  - destruct rest; [discriminate Hlen|].
    split; [discriminate|split].
    + intros i; split; intros E; discriminate E.
    + intros _; rewrite Hex; split; [reflexivity | exact Hp].
Qed.

Lemma v5_renders_single_item_groups_flat_witness :
  exists gs g1 g2,
    organizeByGroups codeUnitCompare sampleDescriptors = Some gs
    /\ In g1 gs /\ In g2 gs
    /\ (exists i, V5ContentTypeGroupSection (js "/admin") g1 = V5Flat i)
    /\ (exists links, V5ContentTypeGroupSection (js "/admin") g2
                      = V5Collapsible (js "Blog") false links).
Proof.
  destruct (organizeByGroups codeUnitCompare sampleDescriptors)
    as [gs|] eqn:E; [|discriminate E].
  destruct gs as [|g2 [|g1 gs']]; try discriminate E.
  assert (H1 : In g1 (g2 :: g1 :: gs')) by (right; left; reflexivity).
  assert (H2 : In g2 (g2 :: g1 :: gs')) by (left; reflexivity).
  destruct (v5_renders_single_item_groups_flat codeUnitCompare
              sampleDescriptors _ g2 (js "/admin") E H2) as (_ & _ & Hc).
  exists (g2 :: g1 :: gs'), g1, g2.
  vm_compute in E; inversion E; subst g1 g2 gs'; clear E.
  repeat split; auto.
  - eexists; reflexivity.
  - eexists; apply Hc; simpl; lia.
Defined.

Lemma href_includes_uid (delimiter : list N)
  (data : option (list RawContentType)) (d : ContentType) :
  In d (formatContentTypes delimiter data) -> isActive (href d) d = true.
Proof.
  intros H.
  destruct (formatContentTypes_inv _ _ _ H) as (records & ct & _ & _ & _ & ->).
  unfold isActive; rewrite formatContentType_href, formatContentType_uid.
  rewrite !app_assoc; apply includes_app_r.
Qed.

(** X14.  The accordion opens no group exactly when the location mentions
    the uid of no item; the group it opens holds an item whose uid the
    location mentions; and at a location that is the link of a descriptor
    of the listing, the accordion built from that listing opens a group. *)
Theorem accordion_opens_a_group_of_an_active_item :
  forall pathname groups,
    (accordionDefaultValue pathname groups = None
     <-> forall g i, In g groups -> In i (items g) ->
                     isActive pathname i = false)
    /\ (forall n, accordionDefaultValue pathname groups = Some n ->
          exists g i, In g groups /\ gname g = n /\ In i (items g)
                      /\ isActive pathname i = true)
    /\ (forall lc delimiter data i,
          organizeByGroups lc (formatContentTypes delimiter data)
          = Some groups ->
          In i (formatContentTypes delimiter data) ->
          accordionDefaultValue (href i) groups <> None).
Proof.
  intros pathname groups.
  assert (Hnone : forall pn,
            accordionDefaultValue pn groups = None
            <-> forall g i, In g groups -> In i (items g) ->
                            isActive pn i = false).
  { intros pn; unfold accordionDefaultValue.
    destruct (find (fun g => existsb (isActive pn) (items g)) groups)
      as [g|] eqn:E; simpl; split; try discriminate; auto.
    - intros Hall; apply find_some in E; destruct E as [Hg E].
      apply existsb_exists in E; destruct E as (i & Hi & Ha).
      rewrite (Hall g i Hg Hi) in Ha; discriminate.
    - intros _ g i Hg Hi.
      pose proof (find_none _ _ E g Hg) as Hn; simpl in Hn.
      destruct (isActive pn i) eqn:Ha; [|reflexivity].
      assert (existsb (isActive pn) (items g) = true); [|congruence].
      apply existsb_exists; eauto. }
  split; [apply Hnone|split].
  - intros n; unfold accordionDefaultValue.
    destruct (find (fun g => existsb (isActive pathname) (items g)) groups)
      as [g|] eqn:E; simpl; [|discriminate].
    intros Hn; inversion Hn; subst n.
    apply find_some in E; destruct E as [Hg E].
    apply existsb_exists in E; destruct E as (i & Hi & Ha).
    exists g, i; auto.
  - intros lc delimiter data i H Hi Hn.
    destruct (proj1 (organizeByGroups_item_In _ _ _ i H) Hi) as (g & Hg & Hig).
    pose proof (proj1 (Hnone (href i)) Hn g i Hg Hig) as Hf.
    rewrite (href_includes_uid _ _ _ Hi) in Hf; discriminate.
Qed.

Lemma accordion_opens_a_group_of_an_active_item_witness :
  exists gs,
    organizeByGroups codeUnitCompare sampleDescriptors = Some gs
    /\ accordionDefaultValue
         (js "/admin/content-manager/single-types/api::about.about") gs
       = Some (js "About")
    /\ Forall (fun i => accordionDefaultValue (href i) gs <> None)
         sampleDescriptors.
Proof.
  destruct (organizeByGroups codeUnitCompare sampleDescriptors)
    as [gs|] eqn:E; [|discriminate E].
  exists gs; split; [reflexivity|].
  pose proof (proj2 (proj2 (accordion_opens_a_group_of_an_active_item
                              (js "/admin") gs)) codeUnitCompare (js " | ")
                (Some [ listed "api::post.post" "post" "[2] Blog | Post"
                               collectionType;
                        listed "api::about.about" "about" "[7] About" singleType;
                        listed "api::category.category" "category"
                               "Blog | Category" collectionType ]))
    as H.
  split.
  - vm_compute in E; inversion E; reflexivity.
  - apply Forall_forall; intros i Hi; exact (H i E Hi).
Defined.

(* ================================================================== *)
(** * Further properties of configuration resolution *)
(* ================================================================== *)

(** X15.  Configuration resolves by precedence: a truthy field of the
    config object wins over the environment variable, which wins over the
    built-in default; and when the fetch fails, or answers with anything
    but an object, the result is what the environment and the defaults
    give, which without environment is the delimiter " | " and the
    accordion renderer. *)
Theorem configuration_precedence :
  forall envDelimiter envTemplate,
    (forall fields,
        let config := getPluginConfig envDelimiter envTemplate
                        (Some (JObject fields)) in
        (truthy (lookupField fields (js "delimiter")) = true ->
         delimiter config = lookupField fields (js "delimiter"))
        /\ (truthy (lookupField fields (js "template")) = true ->
            template config = lookupField fields (js "template")))
    /\ (forall response,
           (forall fields, response <> Some (JObject fields)) ->
           getPluginConfig envDelimiter envTemplate response
           = {| delimiter := jsOr (envValue envDelimiter)
                               (JString defaultDelimiter);
                template := jsOr (envValue envTemplate)
                              (JString (templateName defaultTemplate)) |})
    /\ (forall response,
           (forall fields, response <> Some (JObject fields)) ->
           let config := getPluginConfig None None response in
           delimiter config = JString (js " | ")
           /\ selectTemplate (template config) = accordion).
Proof.
  intros envDelimiter envTemplate.
  assert (G : forall eD eT response,
             (forall fields, response <> Some (JObject fields)) ->
             getPluginConfig eD eT response
             = {| delimiter := jsOr (envValue eD) (JString defaultDelimiter);
                  template := jsOr (envValue eT)
                                (JString (templateName defaultTemplate)) |}).
  { intros eD eT response Hno; unfold getPluginConfig.
    destruct response as [v|]; [|reflexivity].
    destruct v as [| |b|z|s|elems|fields];
      try reflexivity; try (exfalso; exact (Hno fields eq_refl)).
    - destruct b; reflexivity.
    - simpl; destruct (negb (z =? 0)%Z); reflexivity.
    - destruct s; reflexivity. }
  split; [|split].
  - intros fields config; unfold config, getPluginConfig; simpl.
    split; intros H; unfold jsOr; rewrite H; reflexivity.
  - apply G.
  - intros response Hno config; unfold config.
    rewrite (G None None response Hno); split; reflexivity.
Qed.

Lemma configuration_precedence_witness :
  getPluginConfig (Some (js " / ")) None (Some (JString (js "<html>")))
  = {| delimiter := JString (js " / "); template := JString (js "accordion") |}
  /\ delimiter (getPluginConfig (Some (js " / ")) None
                  (Some (JObject [ (js "delimiter", JString (js " - ")) ])))
     = JString (js " - ").
Proof.
  split.
  - apply (proj1 (proj2 (configuration_precedence (Some (js " / ")) None))).
    intros fields E; discriminate E.
  - apply (proj1 (proj1 (configuration_precedence (Some (js " / ")) None)
                    [ (js "delimiter", JString (js " - ")) ])).
    reflexivity.
Defined.

(* ================================================================== *)
(** * Further properties of the mount operation *)
(* ================================================================== *)

(** X16.  The third tier of the search for the navigation root never finds
    anything: it runs only when the document holds no [nav] element, and it
    searches among the [nav] elements.  So the root is the first [nav]
    labelled "Content Manager", or else the first [nav] of the document,
    and none is found exactly when the document holds no [nav]. *)
Theorem third_tier_of_findNav_is_dead :
  forall d,
    findNav d
    = match querySelector d navQuery with
      | Some nav => Some nav
      | None => querySelector d (fun n => hasTag n (js "nav"))
      end
    /\ (findNav d = None
        <-> forall e, In e (elements d) -> hasTag (snd e) (js "nav") = false)
    /\ (forall nav, findNav d = Some nav ->
          In nav (elements d) /\ hasTag (snd nav) (js "nav") = true).
Proof.
  intros d.
  assert (E : findNav d
              = match querySelector d navQuery with
                | Some nav => Some nav
                | None => querySelector d (fun n => hasTag n (js "nav"))
                end).
  { unfold findNav.
    destruct (querySelector d navQuery); [reflexivity|].
    destruct (querySelector d (fun n => hasTag n (js "nav"))) eqn:Q;
      [reflexivity|].
    unfold querySelector in Q; unfold querySelectorAll.
    rewrite (find_None_filter _ _ Q); reflexivity. }
  split; [exact E|split].
  - rewrite E; unfold querySelector; split.
    + destruct (find (fun e => navQuery (snd e)) (elements d)); [discriminate|].
      intros H e He; exact (find_none _ _ H e He).
    + intros H.
      destruct (find (fun e => navQuery (snd e)) (elements d)) as [e|] eqn:Q.
      * apply find_some in Q; destruct Q as [He Q].
        unfold navQuery in Q; rewrite (H e He) in Q; discriminate Q.
      * apply filter_nil_find.
        destruct (filter (fun e => hasTag (snd e) (js "nav")) (elements d))
          as [|e l] eqn:F; [reflexivity|].
        assert (He : In e (e :: l)) by (left; reflexivity).
        rewrite <- F in He; apply filter_In in He; destruct He as [He Ht].
        rewrite (H e He) in Ht; discriminate Ht.
  - intros nav; rewrite E; unfold querySelector.
    destruct (find (fun e => navQuery (snd e)) (elements d)) as [e|] eqn:Q.
    + intros H; inversion H; subst e.
      apply find_some in Q; destruct Q as [He Q].
      unfold navQuery in Q; apply andb_true_iff in Q; tauto.
    + intros H; apply find_some in H; exact H.
Qed.

Lemma nth_error_replaceNth (f : Node -> Node) (cs : list Node) :
  forall k c, nth_error cs k = Some c ->
              nth_error (replaceNth k f cs) k = Some (f c).
Proof.
  induction cs as [|x cs IH]; intros [|k] c; simpl; try discriminate.
  - intros H; inversion H; reflexivity.
  - apply IH.
Qed.

Lemma nodeAt_prependAt (new : Node) (q : Path) :
  forall d m,
    nodeAt d q = Some m -> isElement m = true ->
    nodeAt (prependAt q new d) (q ++ [0%nat]) = Some new.
Proof.
  induction q as [|k q IH]; intros [t a cs|x] m; simpl.
  - intros _ _; reflexivity.
  - intros H; inversion H; subst; discriminate.
  - destruct (nth_error cs k) as [c|] eqn:E; [|discriminate].
    intros H Hm; rewrite (nth_error_replaceNth _ _ _ _ E).
    exact (IH c m H Hm).
  - discriminate.
Qed.

(** X17.  When the document holds a navigation root with an ordered list
    and no container yet, one run of [setupNavigationReplacement] puts the
    container in as the first child of one of those lists, asks for one
    render, into that node, and leaves exactly one container in the
    document.  Without a root, or without a list in it, the run does
    nothing. *)
Theorem mount_prepends_the_container :
  forall d,
    (forall nav,
        findNav d = Some nav -> listsOf nav <> [] ->
        getElementById d containerId = None ->
        exists ol,
          In ol (listsOf nav)
          /\ setupNavigationReplacement d
             = (prependAt (fst ol) navContainer d,
                [RenderNavigationApp (fst ol ++ [0%nat])])
          /\ nodeAt (fst (setupNavigationReplacement d)) (fst ol ++ [0%nat])
             = Some navContainer
          /\ countContainers (fst (setupNavigationReplacement d)) = 1%nat)
    /\ (findNav d = None -> setupNavigationReplacement d = (d, []))
    /\ (forall nav, findNav d = Some nav -> listsOf nav = [] ->
                    setupNavigationReplacement d = (d, [])).
Proof.
  intros d; split; [|split].
  - intros [navPath nav] Hnav Hne Hnone.
    assert (Hroot : nodeAt d navPath = Some nav)
      by (apply findNav_In, elements_nodeAt in Hnav; tauto).
    assert (Hols : forall ol, In ol (listsOf (navPath, nav)) ->
                              nodeAt d (fst ol) = Some (snd ol)
                              /\ isElement (snd ol) = true).
    { intros [q m] H; apply filter_In in H; destruct H as [H _].
      exact (descendants_nodeAt d navPath nav q m Hroot H). }
    assert (Hproc : forall ol, In ol (listsOf (navPath, nav)) ->
              processNavigation d (fst ol)
              = (prependAt (fst ol) navContainer d,
                 [RenderNavigationApp (fst ol ++ [0%nat])])
              /\ nodeAt (fst (processNavigation d (fst ol))) (fst ol ++ [0%nat])
                 = Some navContainer
              /\ countContainers (fst (processNavigation d (fst ol))) = 1%nat).
    { intros ol Hol; destruct (Hols ol Hol) as [Hq Hm].
      split; [unfold processNavigation; rewrite Hnone; reflexivity|].
      split; [|exact (processNavigation_creates d _ _ Hnone Hq Hm)].
      unfold processNavigation; rewrite Hnone; simpl fst.
      exact (nodeAt_prependAt _ _ d _ Hq Hm). }
    unfold setupNavigationReplacement; rewrite Hnav.
    change (querySelectorAllIn navPath nav (fun n => hasTag n (js "ol")))
      with (listsOf (navPath, nav)).
    match goal with |- context [find ?f (listsOf (navPath, nav))] =>
      destruct (find f (listsOf (navPath, nav))) as [ol|] eqn:F end.
    + exists ol; pose proof (proj1 (find_some _ _ F)) as Hol.
      split; [exact Hol | apply Hproc, Hol].
    + destruct (listsOf (navPath, nav)) as [|ol rest] eqn:L; [congruence|].
      exists ol; split; [left; reflexivity|].
      apply Hproc; left; reflexivity.
  - intros H; unfold setupNavigationReplacement; rewrite H; reflexivity.
  - intros [navPath nav] H L; unfold setupNavigationReplacement; rewrite H.
    change (querySelectorAllIn navPath nav (fun n => hasTag n (js "ol")))
      with (listsOf (navPath, nav)).
    rewrite L; reflexivity.
Qed.

Lemma mount_prepends_the_container_witness :
  setupNavigationReplacement hostDocument
  = (prependAt [0; 0; 0]%nat navContainer hostDocument,
     [RenderNavigationApp [0; 0; 0; 0]%nat])
  /\ exists ol : Path * Node,
       nodeAt (fst (setupNavigationReplacement hostDocument)) (fst ol ++ [0%nat])
       = Some navContainer.
Proof.
  split; [reflexivity|].
  destruct (findNav hostDocument) as [nav|] eqn:E; [|discriminate E].
  destruct (proj1 (mount_prepends_the_container hostDocument) nav E)
    as (ol & _ & _ & H & _).
  - vm_compute in E; inversion E; subst nav; discriminate.
  - reflexivity.
  - exists ol; exact H.
Defined.

(* ================================================================== *)
(** * The guards of the cleaning *)
(* ================================================================== *)

Lemma testHintPrefix_matchSortPrefix (text : list N) :
  testHintPrefix text = true <-> matchSortPrefix text <> None.
Proof.
  unfold testHintPrefix, matchSortPrefix.
  destruct text as [|c t]; [split; [discriminate | congruence]|].
  destruct (N.eqb c 91); simpl; [|split; [discriminate | congruence]].
  destruct (takeWhile isDigit t) as [|d ds];
    [split; [discriminate | congruence]|].
  destruct (dropWhile isDigit t) as [|b r];
    [split; [discriminate | congruence]|].
  destruct (N.eqb b 93); split; try discriminate; congruence.
Qed.

Lemma cleanHeaderText_length (text : list N) :
  matchSortPrefix text <> None ->
  (length (cleanHeaderText text) < length text)%nat.
Proof.
  unfold cleanHeaderText.
  destruct (matchSortPrefix text) as [[ds rest]|] eqn:E; [|congruence].
  intros _; destruct (matchSortPrefix_Some _ _ _ E) as (tail & _ & _ & -> & ->).
  destruct (dropWhile_suffix isWhiteSpace tail) as [dropped Hd].
  unfold trimStart; simpl; rewrite length_app; simpl.
  rewrite Hd at 2; rewrite length_app; lia.
Qed.

(** X18.  The cheap guard [/^\[\d+\]/], under which the interval callback
    and [cleanNavigationItems] write a cleaned text, holds exactly when
    cleaning changes the text, which is the guard of [cleanHeaderElement]:
    none of the three ever writes back a text that is unchanged, and each
    writes whenever there is a hint to strip. *)
Theorem cleaning_guards_agree :
  forall text,
    (testHintPrefix text = true <-> cleanHeaderText text <> text)
    /\ (testHintPrefix text = true <-> hasHintPrefix text)
    /\ (testHintPrefix text = false -> cleanHeaderText text = text).
Proof.
  intros text.
  assert (H1 : testHintPrefix text = true <-> cleanHeaderText text <> text).
  { rewrite testHintPrefix_matchSortPrefix; split.
    - intros H E; apply cleanHeaderText_length in H.
      rewrite E in H; lia.
    - intros H E; apply H; unfold cleanHeaderText; rewrite E; reflexivity. }
  split; [exact H1|split].
  - rewrite testHintPrefix_matchSortPrefix; split.
    + intros H; destruct (matchSortPrefix text) as [[ds rest]|] eqn:E;
        [|congruence].
      destruct (matchSortPrefix_Some _ _ _ E) as (tail & ? & ? & ? & _).
      exists ds, tail; auto.
    + intros H E; apply matchSortPrefix_None in E; exact (E H).
  - intros H; destruct (matchSortPrefix text) eqn:E.
    + assert (testHintPrefix text = true)
        by (apply testHintPrefix_matchSortPrefix; congruence).
      congruence.
    + unfold cleanHeaderText; rewrite E; reflexivity.
Qed.

(* ================================================================== *)
(** * Search mode *)
(* ================================================================== *)

Lemma path_eqb_eq (p q : Path) : path_eqb p q = true <-> p = q.
Proof.
  revert q; induction p as [|x p IH]; intros [|y q]; simpl;
    try (split; (discriminate || reflexivity)).
  rewrite andb_true_iff, Nat.eqb_eq, IH.
  split; [intros [-> ->]; reflexivity | intros H; inversion H; auto].
Qed.

Lemma assigned_In (els : list Path) (p : Path) :
  assigned els p = true <-> In p els.
Proof.
  unfold assigned; rewrite existsb_exists; split.
  - intros (q & Hq & E); apply path_eqb_eq in E; subst; exact Hq.
  - intros H; exists p; split; [exact H | apply path_eqb_eq; reflexivity].
Qed.

Lemma displayOf_setDisplayEach (v : list N) (els : list Path) :
  forall (s : Styles) (p : Path),
    displayOf (setDisplayEach v els s) p
    = if assigned els p then Some v else displayOf s p.
Proof.
  unfold setDisplayEach, assigned.
  induction els as [|q els IH]; intros s p; simpl; [reflexivity|].
  rewrite IH; simpl.
  destruct (existsb (fun q0 => path_eqb q0 p) els);
    [rewrite orb_true_r; reflexivity|].
  rewrite orb_false_r; reflexivity.
Qed.

(** The display of an element after a toggle: the last assignment made to
    it, which is that of the custom items, else that of the header rows,
    else that of the other items of the navigation. *)
Lemma displayOf_toggleIsSearching (b : bool) (d : Node) (st : SearchState)
  (p : Path) :
  findNavOfApp d <> None ->
  displayOf (styles (toggleIsSearching b d st)) p
  = if assigned (customNavItems d) p
    then Some (if b then js "none" else js "")
    else if assigned (headerRows d) p
         then Some (if negb b then js "none" else js "")
         else if assigned (otherNavs d) p
              then Some (if b then js "initial" else js "none")
              else displayOf (styles st) p.
Proof.
  intros Hnav; unfold toggleIsSearching.
  destruct (findNavOfApp d); [|congruence]; simpl.
  unfold hideCollectionHeaders.
  rewrite !displayOf_setDisplayEach; reflexivity.
Qed.

(** X19.  With the navigation root in the document, a toggle of the search
    mode leaves the two navigations in complementary states: every item of
    the injected navigation is hidden exactly when searching, and every
    other item of the lists of the root, and every header row, is hidden
    exactly when not searching; elements outside these keep their display.
    Without a navigation root the toggle changes nothing, not even the
    state. *)
Theorem search_mode_visibility_is_complementary :
  forall b d st,
    (findNavOfApp d <> None ->
     isSearchingState (toggleIsSearching b d st) = b
     /\ (forall p, In p (customNavItems d) ->
           displayOf (styles (toggleIsSearching b d st)) p
           = Some (if b then js "none" else js ""))
     /\ (forall p, In p (otherNavs d) \/ In p (headerRows d) ->
           ~ In p (customNavItems d) ->
           exists v, displayOf (styles (toggleIsSearching b d st)) p = Some v
                     /\ (v = js "none" <-> b = false))
     /\ (forall p, ~ In p (customNavItems d) -> ~ In p (otherNavs d) ->
           ~ In p (headerRows d) ->
           displayOf (styles (toggleIsSearching b d st)) p
           = displayOf (styles st) p))
    /\ (findNavOfApp d = None -> toggleIsSearching b d st = st).
Proof.
  intros b d st; split.
  - intros Hnav; split; [|split; [|split]].
    + unfold toggleIsSearching; destruct (findNavOfApp d); [reflexivity|congruence].
    + intros p Hp; rewrite (displayOf_toggleIsSearching b d st p Hnav).
      apply assigned_In in Hp; rewrite Hp; reflexivity.
    + intros p Hp Hc; rewrite (displayOf_toggleIsSearching b d st p Hnav).
      destruct (assigned (customNavItems d) p) eqn:Ec;
        [apply assigned_In in Ec; contradiction|].
      destruct (assigned (headerRows d) p) eqn:Eh.
      * eexists; split; [reflexivity|].
        destruct b; cbv; split; intros E; (reflexivity || discriminate E).
      * destruct Hp as [Hp|Hp]; apply assigned_In in Hp; [|congruence].
        rewrite Hp; eexists; split; [reflexivity|].
        destruct b; cbv; split; intros E; (reflexivity || discriminate E).
    + intros p Hc Ho Hh; rewrite (displayOf_toggleIsSearching b d st p Hnav).
      destruct (assigned (customNavItems d) p) eqn:Ec;
        [apply assigned_In in Ec; contradiction|].
      destruct (assigned (headerRows d) p) eqn:Eh;
        [apply assigned_In in Eh; contradiction|].
      destruct (assigned (otherNavs d) p) eqn:Eo;
        [apply assigned_In in Eo; contradiction|].
      reflexivity.
  - intros H; unfold toggleIsSearching; rewrite H; reflexivity.
Qed.

Lemma search_mode_visibility_is_complementary_witness :
  map (displayOf (styles (toggleIsSearching true mountedDocument
                            {| styles := []; isSearchingState := false |})))
      [ [0; 0; 0; 0; 0; 0; 0]; [0; 0; 0; 1]; [0; 0; 0; 1; 0] ]%nat
  = [ Some (js "none"); Some (js "initial"); Some (js "") ]
  /\ displayOf (styles (toggleIsSearching false mountedDocument
                          {| styles := []; isSearchingState := true |}))
       [0; 0; 0; 0; 0; 0; 1]%nat
     = Some (js "").
Proof.
  split; [reflexivity|].
  apply (proj1 (proj2 (proj1 (search_mode_visibility_is_complementary false
                                mountedDocument
                                {| styles := []; isSearchingState := true |})
                         ltac:(discriminate)))
           [0; 0; 0; 0; 0; 0; 1]%nat).
  right; left; reflexivity.
Defined.



(* ================================================================== *)
(** * Start-up *)
(* ================================================================== *)

Lemma startUp_counts (calls : list StartUp) :
  forall w,
    headerObservers (fold_left startUp calls w)
    = (headerObservers w + length (filter isBuild calls) + setUps w calls)%nat
    /\ mountRuns (fold_left startUp calls w)
       = (mountRuns w + length (filter isBuild calls) + setUps w calls)%nat
    /\ (intervals w <= intervals (fold_left startUp calls w)
        <= intervals w + setUps w calls)%nat
    /\ (navigationInitialized w = Some true ->
        navigationInitialized (fold_left startUp calls w) = Some true).
Proof.
  induction calls as [|call calls IH]; intros w.
  - unfold setUps; simpl.
    destruct (navigationInitialized w) as [[|]|]; repeat split; auto; lia.
  - cbn [fold_left].
    destruct (IH (startUp w call)) as (H1 & H2 & H3 & H4).
    rewrite H1, H2; clear H1 H2.
    unfold setUps in *; destruct call; simpl in *;
      destruct (existsb isContinuous calls).
    1, 2: destruct (navigationInitialized w) as [[|]|]; simpl in *;
      repeat split; auto; try lia; try congruence.
    all: unfold setupContinuousNavigationCheck in *;
      destruct (navigationInitialized w) as [[|]|] eqn:E; simpl in *;
      rewrite ?E in *; simpl in *;
      destruct (checkNavigationInterval w); simpl in *;
      repeat split; auto; try lia; try congruence.
Qed.

(** X21.  However often and in whatever order the two start-up entry
    points are called on a fresh page, at most one interval is registered,
    and the set-up of [setupContinuousNavigationCheck] runs once at most;
    every call of [buildNavigation], though, runs the mount operation and
    creates one more header observer, and it never takes back the
    initialized flag. *)
Theorem start_up_registers_one_interval :
  forall calls,
    let w := fold_left startUp calls freshWindow in
    let once := if existsb isContinuous calls then 1%nat else 0%nat in
    (intervals w <= once <= 1)%nat
    /\ headerObservers w = (length (filter isBuild calls) + once)%nat
    /\ mountRuns w = (length (filter isBuild calls) + once)%nat
    /\ (forall more,
          navigationInitialized w = Some true ->
          navigationInitialized (fold_left startUp more w) = Some true
          /\ intervals (fold_left startUp more w) = intervals w).
Proof.
  intros calls w once.
  pose proof (startUp_counts calls freshWindow) as (H1 & H2 & H3 & _).
  unfold setUps in *; simpl in H1, H2, H3.
  fold w in H1, H2, H3; fold once in H1, H2, H3.
  repeat split; auto; try lia.
  - unfold once; destruct (existsb isContinuous calls); lia.
  - pose proof (startUp_counts more w) as (_ & _ & _ & H4); auto.
  - pose proof (startUp_counts more w) as (_ & _ & H5 & _).
    unfold setUps in H5; rewrite H in H5; lia.
Qed.

Lemma start_up_registers_one_interval_witness :
  intervals (fold_left startUp [Build; Continuous; Continuous; Build]
                       freshWindow) = 1%nat
  /\ headerObservers (fold_left startUp [Build; Continuous; Continuous; Build]
                                freshWindow) = 3%nat.
Proof.
  split; [reflexivity|].
  exact (proj1 (proj2 (start_up_registers_one_interval
                         [Build; Continuous; Continuous; Build]))).
Defined.

Lemma organizeByGroups_filed (lc : list N -> list N -> Z)
  (cts : list ContentType) (gs : list ContentTypeGroup)
  (g : ContentTypeGroup) (i : ContentType) :
  organizeByGroups lc cts = Some gs -> In g gs -> In i (items g) ->
  gname g = groupKey i.
Proof.
  intros H Hg Hi.
  destruct (organizeByGroups_In _ _ _ _ H Hg) as (m & k & a & Hm & Hin & ->).
  simpl in *; apply Array_sort_In in Hi.
  assert (Hf : filedByKey m)
    by (apply (forEachAdd_filedByKey cts [] m); [constructor | exact Hm]).
  unfold filedByKey in Hf; rewrite Forall_forall in Hf.
  specialize (Hf _ Hin); rewrite Forall_forall in Hf.
  symmetry; exact (Hf i Hi).
Qed.

Lemma NoDup_map_eq {A B : Type} (f : A -> B) (l : list A) (x y : A) :
  NoDup (map f l) -> In x l -> In y l -> f x = f y -> x = y.
Proof.
  induction l as [|a l IH]; simpl; intros Hnd Hx Hy E; [destruct Hx|].
  inversion Hnd as [|? ? Hnot Hnd']; subst.
  destruct Hx as [->|Hx], Hy as [->|Hy]; auto.
  - exfalso; apply Hnot; rewrite E; apply in_map, Hy.
  - exfalso; apply Hnot; rewrite <- E; apply in_map, Hx.
Qed.

(** X22.  Group membership is a function of the key alone: two descriptors
    handed to the engine stand in the same group exactly when they are
    filed under the same key (their group name, or "General" when that is
    empty or undefined), wherever they stood in the input. *)
Theorem same_key_same_group :
  forall lc cts gs i j,
    organizeByGroups lc cts = Some gs -> In i cts -> In j cts ->
    (groupKey i = groupKey j
     <-> exists g, In g gs /\ In i (items g) /\ In j (items g))
    /\ (forall g g', In g gs -> In g' gs ->
          In i (items g) -> In i (items g') -> g = g').
Proof.
  intros lc cts gs i j H Hi Hj.
  pose proof (organizeByGroups_names _ _ _ H) as Hnd.
  destruct (proj1 (organizeByGroups_item_In _ _ _ i H) Hi) as (gi & Hgi & Higi).
  destruct (proj1 (organizeByGroups_item_In _ _ _ j H) Hj) as (gj & Hgj & Hjgj).
  split.
  - split.
    + intros E; exists gi; repeat split; auto.
      assert (gi = gj); [|subst; exact Hjgj].
      apply (NoDup_map_eq gname gs _ _ Hnd Hgi Hgj).
      rewrite (organizeByGroups_filed _ _ _ _ _ H Hgi Higi).
      rewrite (organizeByGroups_filed _ _ _ _ _ H Hgj Hjgj); exact E.
    + intros (g & Hg & Hig & Hjg).
      rewrite <- (organizeByGroups_filed _ _ _ _ _ H Hg Hig).
      exact (organizeByGroups_filed _ _ _ _ _ H Hg Hjg).
  - intros g g' Hg Hg' Hig Hig'.
    apply (NoDup_map_eq gname gs _ _ Hnd Hg Hg').
    rewrite (organizeByGroups_filed _ _ _ _ _ H Hg Hig).
    rewrite (organizeByGroups_filed _ _ _ _ _ H Hg' Hig'); reflexivity.
Qed.

Lemma same_key_same_group_witness :
  exists gs g,
    organizeByGroups codeUnitCompare sampleDescriptors = Some gs
    /\ In g gs
    /\ map name (items g) = [js "post"; js "category"].
Proof.
  destruct (organizeByGroups codeUnitCompare sampleDescriptors)
    as [gs|] eqn:E; [|discriminate E].
  destruct sampleDescriptors as [|i [|k [|j rest]]] eqn:S;
    try discriminate S.
  assert (Hi : In i (i :: k :: j :: rest)) by (left; reflexivity).
  assert (Hj : In j (i :: k :: j :: rest))
    by (right; right; left; reflexivity).
  destruct (proj1 (proj1 (same_key_same_group codeUnitCompare
                            (i :: k :: j :: rest) gs i j E Hi Hj)))
    as (g & Hg & Hig & Hjg).
  - vm_compute in S; inversion S; reflexivity.
  - exists gs, g; split; [reflexivity|split; [exact Hg|]].
    vm_compute in S; inversion S; subst i k j rest; clear S.
    vm_compute in E; inversion E; subst gs; clear E.
    destruct Hg as [<-|[<-|[]]]; [reflexivity|].
    exfalso; destruct Hig as [Hig|[]]; discriminate Hig.
Defined.
